(** * kubecfg-operator: the Konfiguration API helpers

    A shallow embedding of [api/v1/konfiguration_utils.go] and of the
    parts of the CRD schema
    [config/crd/bases/apps.kubecfg.io_konfigurations.yaml] that the
    helpers rely on, followed by the dependency gate and the reconcile
    scheduler of the specification, which read the unit through these
    helpers and whose code is not among the sources.

    Conventions.
    - A Go [string] is a sequence of bytes: [String.string].
    - A Go [map[string]string] is a [gmap string string]; a nil map and an
      empty map behave alike under [range] and lookup, so both are [∅],
      except for [Secret.Data], where the code tests for nil.
    - A Go pointer field that may be nil is an [option].
    - A method with a pointer receiver that assigns through the receiver
      is a function returning the receiver's new value next to its result.
    - [time.Duration] is an [int64] count of nanoseconds: a [Z]. *)

From Stdlib.Init Require Import Byte.
From stdpp Require Import gmap strings list fin_maps sets.


(** ** The imported Go packages, as far as the helpers use them *)

Module time.
Definition Duration := Z.
End time.

Module types.
(** [k8s.io/apimachinery/pkg/types.NamespacedName] *)
Record NamespacedName := { Namespace : string; Name : string }.
End types.

Module metav1.
(** [metav1.Duration] wraps a [time.Duration]. *)
Record Duration := { Duration_ : time.Duration }.

(** The fields of [metav1.ObjectMeta] that are read here; a deletion
    timestamp is there once the user has asked for the deletion. *)
Record ObjectMeta :=
  { Namespace : string;
    Name : string;
    Generation : Z;
    DeletionTimestamp : option Z;
    Finalizers : list string }.
End metav1.

Module dependency.
(** [fluxcd/pkg/runtime/dependency.CrossNamespaceDependencyReference];
    the CRD requires [name] only. *)
Record CrossNamespaceDependencyReference :=
  { Namespace : string; Name : string }.
End dependency.

Module corev1.
Record LocalObjectReference := { Name : string }.

(** [Data] is a [map[string][]byte]; [None] is the nil map. *)
Record Secret :=
  { Namespace : string;
    SecretName : string;
    Data : option (gmap string (list byte)) }.
End corev1.

(** Go's [error] values that [Fetch] can produce: whatever the client
    returned, or one built by [fmt.Errorf]. *)
Inductive error :=
| clientError (reason : string)
| Errorf (msg : string).

Module client.
(** [client.Client], reduced to the [Get] of a Secret that [Fetch] makes:
    the read either fills the object or returns an error. *)
Definition Client := types.NamespacedName -> corev1.Secret + error.
End client.

(** ** Package v1: the Konfiguration types

    The struct declarations live in [konfiguration_types.go], which is not
    among the sources; the fields are the ones the accessors read and the
    CRD schema lists, with the types the schema gives them. *)

Record CrossNamespaceSourceReference :=
  { APIVersion : string;
    Kind : string;
    Name : string;
    Namespace : string }.

Record KubeConfig := { SecretRef : corev1.LocalObjectReference }.

Record Variables :=
  { ExtStr : gmap string string;
    ExtCode : gmap string string;
    TLAStr : gmap string string;
    TLACode : gmap string string }.

Record KonfigurationSpec :=
  { DependsOn : list dependency.CrossNamespaceDependencyReference;
    DiffStrategy : string;
    Interval : metav1.Duration;
    KubeConfig_ : option KubeConfig;
    KubecfgArgs : list string;
    Path : string;
    Prune : bool;
    RetryInterval : option metav1.Duration;
    SourceRef : option CrossNamespaceSourceReference;
    Suspend : bool;
    Timeout : option metav1.Duration;
    Validate : bool;
    Variables_ : option Variables }.

(** Modelled from the spec: the entries of [status.snapshot], whose Go
    struct is not among the sources.  The CRD lists, per namespace, the
    kinds applied there; section 3 of the specification records under each
    kind the identifiers of the applied objects, which is what pruning
    needs, and is what is modelled here. *)
Definition SnapshotEntries : Type := gmap string (gmap string (gset string)).

Record Snapshot :=
  { Checksum : string; Entries : SnapshotEntries }.

Inductive ConditionStatus := ConditionTrue | ConditionFalse | ConditionUnknown.

Record Condition :=
  { Type_ : string;
    Status_ : ConditionStatus;
    Reason : string;
    Message : string;
    LastTransitionTime : Z;
    CondObservedGeneration : Z }.

Record KonfigurationStatus :=
  { ObservedGeneration : Z;
    LastAppliedRevision : string;
    LastAttemptedRevision : string;
    Conditions : list Condition;
    Snapshot_ : option Snapshot }.

Record Konfiguration :=
  { ObjectMeta : metav1.ObjectMeta;
    Spec : KonfigurationSpec;
    Status : KonfigurationStatus }.

(** [GetNamespace] and [GetName] are promoted from the embedded
    [ObjectMeta]. *)
Definition GetNamespace (k : Konfiguration) : string :=
  metav1.Namespace (ObjectMeta k).

Definition GetName (k : Konfiguration) : string :=
  metav1.Name (ObjectMeta k).

(** ** The accessors *)

Definition GetInterval (k : Konfiguration) : time.Duration :=
  metav1.Duration_ (Interval (Spec k)).

Definition GetRetryInterval (k : Konfiguration) : time.Duration :=
  match RetryInterval (Spec k) with
  | Some d => metav1.Duration_ d
  | None => GetInterval k
  end.

Definition GetTimeout (k : Konfiguration) : time.Duration :=
  match Timeout (Spec k) with
  | Some d => metav1.Duration_ d
  | None => GetInterval k
  end.

Definition GetKubeConfig (k : Konfiguration) : option KubeConfig :=
  KubeConfig_ (Spec k).

Definition GetPath (k : Konfiguration) : string := Path (Spec k).

Definition GetVariables (k : Konfiguration) : option Variables :=
  Variables_ (Spec k).

Definition GetKubecfgArgs (k : Konfiguration) : list string :=
  KubecfgArgs (Spec k).

Definition GCEnabled (k : Konfiguration) : bool := Prune (Spec k).

Definition ValidateEnabled (k : Konfiguration) : bool := Validate (Spec k).

Definition IsSuspended (k : Konfiguration) : bool := Suspend (Spec k).

Definition GetDiffStrategy (k : Konfiguration) : string :=
  DiffStrategy (Spec k).

Definition GetDependsOn (k : Konfiguration)
  : types.NamespacedName * list dependency.CrossNamespaceDependencyReference :=
  ({| types.Namespace := metav1.Namespace (ObjectMeta k);
      types.Name := metav1.Name (ObjectMeta k) |},
   DependsOn (Spec k)).

(** *** GetSourceRef

    The one accessor that assigns through its receiver:
    [k.Spec.SourceRef.Namespace = k.GetNamespace()]. *)

Definition setNamespace (ns : string) (r : CrossNamespaceSourceReference)
  : CrossNamespaceSourceReference :=
  {| APIVersion := APIVersion r; Kind := Kind r; Name := Name r;
     Namespace := ns |}.

Definition setSourceRef (r : option CrossNamespaceSourceReference)
    (s : KonfigurationSpec) : KonfigurationSpec :=
  {| DependsOn := DependsOn s;
     DiffStrategy := DiffStrategy s;
     Interval := Interval s;
     KubeConfig_ := KubeConfig_ s;
     KubecfgArgs := KubecfgArgs s;
     Path := Path s;
     Prune := Prune s;
     RetryInterval := RetryInterval s;
     SourceRef := r;
     Suspend := Suspend s;
     Timeout := Timeout s;
     Validate := Validate s;
     Variables_ := Variables_ s |}.

Definition setDependsOn
    (ds : list dependency.CrossNamespaceDependencyReference)
    (s : KonfigurationSpec) : KonfigurationSpec :=
  {| DependsOn := ds;
     DiffStrategy := DiffStrategy s;
     Interval := Interval s;
     KubeConfig_ := KubeConfig_ s;
     KubecfgArgs := KubecfgArgs s;
     Path := Path s;
     Prune := Prune s;
     RetryInterval := RetryInterval s;
     SourceRef := SourceRef s;
     Suspend := Suspend s;
     Timeout := Timeout s;
     Validate := Validate s;
     Variables_ := Variables_ s |}.

Definition setSpec (s : KonfigurationSpec) (k : Konfiguration)
  : Konfiguration :=
  {| ObjectMeta := ObjectMeta k; Spec := s; Status := Status k |}.

(** The result is the pointer [k.Spec.SourceRef]; it is given here as the
    value it points to once the call has returned, next to the receiver
    as the call leaves it. *)
Definition GetSourceRef (k : Konfiguration)
  : option CrossNamespaceSourceReference * Konfiguration :=
  match SourceRef (Spec k) with
  | Some r =>
      if String.eqb (Namespace r) ""
      then
        let r' := setNamespace (GetNamespace k) r in
        (Some r', setSpec (setSourceRef (Some r') (Spec k)) k)
      else (Some r, k)
  | None => (None, k)
  end.


(** *** The dispatch over the accessors

    Every method of [*Konfiguration] in the file, with the value it returns
    and the receiver as it is after the call.  All bodies but
    [GetSourceRef]'s are a single [return] of a field, so the receiver
    comes back as it went in. *)

Inductive Accessor :=
| AGetInterval | AGetRetryInterval | AGetTimeout | AGetKubeConfig
| AGetPath | AGetVariables | AGetKubecfgArgs | AGCEnabled
| AValidateEnabled | AIsSuspended | AGetDiffStrategy | AGetDependsOn
| AGetSourceRef.

Inductive Value :=
| VDuration (d : time.Duration)
| VKubeConfig (c : option KubeConfig)
| VString (s : string)
| VVariables (v : option Variables)
| VStrings (l : list string)
| VBool (b : bool)
| VDependsOn
    (r : types.NamespacedName
         * list dependency.CrossNamespaceDependencyReference)
| VSourceRef (r : option CrossNamespaceSourceReference).

Definition call (a : Accessor) (k : Konfiguration) : Value * Konfiguration :=
  match a with
  | AGetInterval => (VDuration (GetInterval k), k)
  | AGetRetryInterval => (VDuration (GetRetryInterval k), k)
  | AGetTimeout => (VDuration (GetTimeout k), k)
  | AGetKubeConfig => (VKubeConfig (GetKubeConfig k), k)
  | AGetPath => (VString (GetPath k), k)
  | AGetVariables => (VVariables (GetVariables k), k)
  | AGetKubecfgArgs => (VStrings (GetKubecfgArgs k), k)
  | AGCEnabled => (VBool (GCEnabled k), k)
  | AValidateEnabled => (VBool (ValidateEnabled k), k)
  | AIsSuspended => (VBool (IsSuspended k), k)
  | AGetDiffStrategy => (VString (GetDiffStrategy k), k)
  | AGetDependsOn => (VDependsOn (GetDependsOn k), k)
  | AGetSourceRef =>
      let '(r, k') := GetSourceRef k in (VSourceRef r, k')
  end.

(** ** KubeConfig.Fetch *)

(** [fmt.Errorf("Secret '%s/%s' contains no ...", ns, name)] *)
Definition secretError (secret : corev1.Secret) (what : string) : error :=
  Errorf ("Secret '" +:+ corev1.Namespace secret +:+ "/"
          +:+ corev1.SecretName secret +:+ "' contains no " +:+ what).

(** The Go pair [(string, error)]; a nil error is [None]. *)
Definition Fetch (k : KubeConfig) (c : client.Client) (namespace : string)
  : string * option error :=
  let nn := {| types.Name := corev1.Name (SecretRef k);
               types.Namespace := namespace |} in
  match c nn with
  | inr err => ("", Some err)
  | inl secret =>
      match corev1.Data secret with
      | None => ("", Some (secretError secret "data"))
      | Some data =>
          match data !! "value" with
          | None => ("", Some (secretError secret "'value' key"))
          | Some bytes => (String.string_of_list_byte bytes, None)
          end
      end
  end.

(** ** Variables.AppendToArgs *)

(** One [for k, v := range m] loop of the method, run over the entries in
    the order [es] in which [range] hands them out:
    [args = append(args, flag, fmt.Sprintf("%s=%s", k, v))]. *)
Definition appendFlag (flag : string) (es : list (string * string))
    (args : list string) : list string :=
  fold_left (fun acc e => acc ++ [flag; e.1 +:+ "=" +:+ e.2]) es args.

(** Go leaves the iteration order of [range] over a map unspecified and
    lets it differ from one loop to the next; each entry is visited once. *)
Definition rangeOrder (m : gmap string string)
    (es : list (string * string)) : Prop :=
  es ≡ₚ map_to_list m.

(** The four loops, in program order, for given iteration orders. *)
Definition AppendToArgs_in (o1 o2 o3 o4 : list (string * string))
    (args : list string) : list string :=
  appendFlag "--tla-code" o4
    (appendFlag "--tla-str" o3
       (appendFlag "--ext-code" o2
          (appendFlag "--ext-str" o1 args))).

(** [AppendToArgs v args out v']: a call on receiver [v] with [args] can
    return [out] and leave the receiver as [v'].  The method only reads
    [v]. *)
Definition AppendToArgs (v : Variables) (args : list string)
    (out : list string) (v' : Variables) : Prop :=
  ∃ o1 o2 o3 o4,
    rangeOrder (ExtStr v) o1 ∧ rangeOrder (ExtCode v) o2 ∧
    rangeOrder (TLAStr v) o3 ∧ rangeOrder (TLACode v) o4 ∧
    out = AppendToArgs_in o1 o2 o3 o4 args ∧ v' = v.

(** One run of the method: the orders are those of [map_to_list]. *)
Definition AppendToArgs_run (v : Variables) (args : list string)
  : list string :=
  AppendToArgs_in (map_to_list (ExtStr v)) (map_to_list (ExtCode v))
    (map_to_list (TLAStr v)) (map_to_list (TLACode v)) args.

(** The appended arguments, pair by pair: the flag and the entry it was
    made from. *)
Definition tagged (o1 o2 o3 o4 : list (string * string))
  : list (string * (string * string)) :=
  map (pair "--ext-str") o1 ++ map (pair "--ext-code") o2
  ++ map (pair "--tla-str") o3 ++ map (pair "--tla-code") o4.

Definition flagPairs (t : list (string * (string * string))) : list string :=
  t ≫= λ p, [p.1; p.2.1 +:+ "=" +:+ p.2.2].

(** The flag of each of the four mappings, in loop order. *)
Definition flagged (v : Variables) : list (string * gmap string string) :=
  [("--ext-str", ExtStr v); ("--ext-code", ExtCode v);
   ("--tla-str", TLAStr v); ("--tla-code", TLACode v)].

Definition entryCount (v : Variables) : nat :=
  size (ExtStr v) + size (ExtCode v) + size (TLAStr v) + size (TLACode v).

(** ** The CRD schema of [spec]

    [openAPIV3Schema.properties.spec] of the CRD: which properties are
    required, the defaults the API server fills in, and the enums it
    checks.  A submitted [spec] has every property present or absent,
    and a property that is present has the type the schema declares for
    it: the [type] constraints of the schema are met by construction and
    are not checked again.  Durations are taken as already parsed. *)

Record SubmittedSourceRef :=
  { sAPIVersion : option string;
    sKind : option string;
    sName : option string;
    sNamespace : option string }.

Record SubmittedDependency :=
  { dName : option string; dNamespace : option string }.

Record SubmittedSpec :=
  { sDependsOn : option (list SubmittedDependency);
    sDiffStrategy : option string;
    sInterval : option metav1.Duration;
    sKubeConfig : option KubeConfig;
    sKubecfgArgs : option (list string);
    sPath : option string;
    sPrune : option bool;
    sRetryInterval : option metav1.Duration;
    sSourceRef : option SubmittedSourceRef;
    sSuspend : option bool;
    sTimeout : option metav1.Duration;
    sValidate : option bool;
    sVariables : option Variables }.

(** [default: subset] and [enum: all, subset, last-applied] *)
Definition diffStrategyDefault : string := "subset".
Definition diffStrategyEnum : list string := ["all"; "subset"; "last-applied"].

(** [enum: GitRepository, Bucket] *)
Definition sourceKindEnum : list string := ["GitRepository"; "Bucket"].

(** Defaulting: [diffStrategy] and [validate] carry a [default]. *)
Definition applyDefaults (s : SubmittedSpec) : SubmittedSpec :=
  {| sDependsOn := sDependsOn s;
     sDiffStrategy :=
       match sDiffStrategy s with
       | Some d => Some d
       | None => Some diffStrategyDefault
       end;
     sInterval := sInterval s;
     sKubeConfig := sKubeConfig s;
     sKubecfgArgs := sKubecfgArgs s;
     sPath := sPath s;
     sPrune := sPrune s;
     sRetryInterval := sRetryInterval s;
     sSourceRef := sSourceRef s;
     sSuspend := sSuspend s;
     sTimeout := sTimeout s;
     sValidate :=
       match sValidate s with
       | Some b => Some b
       | None => Some true
       end;
     sVariables := sVariables s |}.

Definition inEnum (enum : list string) (o : option string) : bool :=
  match o with
  | Some x => existsb (String.eqb x) enum
  | None => true
  end.

Definition present {A} (o : option A) : bool :=
  match o with Some _ => true | None => false end.

Definition validSourceRef (r : SubmittedSourceRef) : bool :=
  present (sKind r) && present (sName r) && inEnum sourceKindEnum (sKind r).

Definition validDependency (d : SubmittedDependency) : bool :=
  present (dName d).

(** Validation: [required: interval, path, prune], the enums, and the
    [required] lists of the nested objects. *)
Definition validSpec (s : SubmittedSpec) : bool :=
  present (sInterval s) && present (sPath s) && present (sPrune s)
  && inEnum diffStrategyEnum (sDiffStrategy s)
  && match sSourceRef s with Some r => validSourceRef r | None => true end
  && match sDependsOn s with
     | Some ds => forallb validDependency ds
     | None => true
     end.

(** Decoding into the Go struct: an absent property is the zero value. *)
Definition decodeSourceRef (r : SubmittedSourceRef)
  : CrossNamespaceSourceReference :=
  {| APIVersion := default "" (sAPIVersion r);
     Kind := default "" (sKind r);
     Name := default "" (sName r);
     Namespace := default "" (sNamespace r) |}.

Definition decodeDependency (d : SubmittedDependency)
  : dependency.CrossNamespaceDependencyReference :=
  {| dependency.Namespace := default "" (dNamespace d);
     dependency.Name := default "" (dName d) |}.

Definition decode (s : SubmittedSpec) : KonfigurationSpec :=
  {| DependsOn := default [] (map decodeDependency <$> sDependsOn s);
     DiffStrategy := default "" (sDiffStrategy s);
     Interval := default {| metav1.Duration_ := 0%Z |} (sInterval s);
     KubeConfig_ := sKubeConfig s;
     KubecfgArgs := default [] (sKubecfgArgs s);
     Path := default "" (sPath s);
     Prune := default false (sPrune s);
     RetryInterval := sRetryInterval s;
     SourceRef := decodeSourceRef <$> sSourceRef s;
     Suspend := default false (sSuspend s);
     Timeout := sTimeout s;
     Validate := default false (sValidate s);
     Variables_ := sVariables s |}.

(** What the API server stores for a submitted [spec], if it accepts it:
    defaults first, then validation. *)
Definition accept (s : SubmittedSpec) : option KonfigurationSpec :=
  let s' := applyDefaults s in
  if validSpec s' then Some (decode s') else None.

(** A manifest as it is submitted.  The schema lists no property as
    required at the top, so [spec] itself may be left out. *)
Record Manifest := { mSpec : option SubmittedSpec }.

(** The Go zero value of [KonfigurationSpec]: what a manifest without
    [spec] decodes to. *)
Definition zeroSpec : KonfigurationSpec :=
  {| DependsOn := [];
     DiffStrategy := "";
     Interval := {| metav1.Duration_ := 0%Z |};
     KubeConfig_ := None;
     KubecfgArgs := [];
     Path := "";
     Prune := false;
     RetryInterval := None;
     SourceRef := None;
     Suspend := false;
     Timeout := None;
     Validate := false;
     Variables_ := None |}.

(** What the API server stores for a manifest, if it accepts it.  The
    defaults and the [required] list sit inside [spec]: without [spec]
    there is nothing to fill in and nothing to check, and the manifest is
    stored as it is. *)
Definition stored (m : Manifest) : option KonfigurationSpec :=
  match mSpec m with
  | Some s => accept s
  | None => Some zeroSpec
  end.


(** ** The Dependency Gate

    The resolution of [dependsOn] has no code in [api/v1] (the CRD notes it
    as not yet implemented); what follows is section 4.1 of the
    specification.  The gate reads the units through [GetDependsOn], which
    hands out the unit's own namespaced name next to the raw list so that
    an entry without a namespace can be read in the unit's own. *)

(** A unit's identity: (namespace, name). *)
Definition Key : Type := string * string.

Definition keyOf (n : types.NamespacedName) : Key :=
  (types.Namespace n, types.Name n).

(** The namespace of an entry defaults to that of the unit listing it. *)
Definition depKey (self : types.NamespacedName)
    (d : dependency.CrossNamespaceDependencyReference) : Key :=
  (if String.eqb (dependency.Namespace d) ""
   then types.Namespace self
   else dependency.Namespace d,
   dependency.Name d).

(** The units as the gate reads them at call time. *)
Definition Store : Type := gmap Key Konfiguration.

(** The dependency edges leaving a unit; a unit that is not there has
    none. *)
Definition deps (store : Store) (n : Key) : list Key :=
  match store !! n with
  | Some k => let '(self, ds) := GetDependsOn k in map (depKey self) ds
  | None => []
  end.

(** Modelled from the spec: the contract of the gate,
    [isReady(unit) -> Ready | NotReady(reason) | Cycle]. *)
Inductive GateResult :=
| Ready
| NotReady (reason : string)
| Cycle.

(** How a depth-first walk ends: the budget ran out, a node of the current
    path came up again, or the walk finished with a larger visited set. *)
Inductive Walk :=
| OutOfFuel
| Revisit
| Done (visited : gset Key).

(** Walk the entries of one unit in order, threading the visited set. *)
Fixpoint walkAll (f : gset Key -> Key -> Walk) (ds : list Key)
    (visited : gset Key) : Walk :=
  match ds with
  | [] => Done visited
  | d :: ds' =>
      match f visited d with
      | Done v => walkAll f ds' v
      | r => r
      end
  end.

(** Modelled from the spec: the depth-first walk of the dependency graph,
    missing from the sources.  [path] is the current path and [visited] the
    set of units already resolved in this call; coming to a unit that is
    on the current path ends the walk. *)
Fixpoint walk (store : Store) (fuel : nat) (path : list Key)
    (visited : gset Key) (n : Key) : Walk :=
  match fuel with
  | O => OutOfFuel
  | S fuel' =>
      if decide (n ∈ path) then Revisit
      else if decide (n ∈ visited) then Done visited
      else
        match walkAll (walk store fuel' (n :: path)) (deps store n) visited
        with
        | Done v => Done ({[n]} ∪ v)
        | r => r
        end
  end.

(** [status = True] on the unit's [Ready] condition. *)
Definition isTrue (s : ConditionStatus) : bool :=
  match s with ConditionTrue => true | _ => false end.

Definition hasReady (k : Konfiguration) : bool :=
  existsb (fun c => String.eqb (Type_ c) "Ready" && isTrue (Status_ c))
    (Conditions (Status k)).

(** Modelled from the spec: the readiness of the entries, missing from the
    sources.  An entry that is not there, or whose [Ready] condition is not
    [True], makes the unit not ready; the first such entry gives the
    reason. *)
Fixpoint firstNotReady (store : Store) (ds : list Key) : option string :=
  match ds with
  | [] => None
  | d :: ds' =>
      match store !! d with
      | None => Some ("dependency '" +:+ d.1 +:+ "/" +:+ d.2 +:+ "' not found")
      | Some k =>
          if hasReady k then firstNotReady store ds'
          else Some ("dependency '" +:+ d.1 +:+ "/" +:+ d.2
                     +:+ "' is not ready")
      end
  end.

(** Modelled from the spec: the resolution, missing from the sources, with
    an explicit budget; [None] when it runs out.  A cycle is fatal and is
    reported whatever the readiness of the units on it. *)
Definition isReady_fuel (fuel : nat) (store : Store) (root : Key)
  : option GateResult :=
  match walk store fuel [] ∅ root with
  | OutOfFuel => None
  | Revisit => Some Cycle
  | Done _ =>
      match firstNotReady store (deps store root) with
      | Some reason => Some (NotReady reason)
      | None => Some Ready
      end
  end.

(** Modelled from the spec: [isReady(unit)], missing from the sources.  A
    path never holds a unit twice, so one more step than there are units
    is budget enough. *)
Definition isReady (store : Store) (root : Key) : GateResult :=
  default (NotReady "resolution did not finish")
    (isReady_fuel (S (size store)) store root).

(** A node of the current path comes up again somewhere below [n]: the
    walk goes from a unit to one of its entries, and stops at the first
    unit that is already on the path. *)
Inductive Revisits (store : Store) : list Key -> Key -> Prop :=
| revisit_here path n :
    n ∈ path -> Revisits store path n
| revisit_below path n d :
    n ∉ path -> d ∈ deps store n -> Revisits store (n :: path) d ->
    Revisits store path n.

(** The dependency relation between units. *)
Definition edge (store : Store) (a b : Key) : Prop := b ∈ deps store a.

(** What the visited set of a walk satisfies: it is closed under the
    dependency relation, no unit in it lies on a cycle, and it shares no
    unit with the current path. *)
Definition closed (store : Store) (X : gset Key) : Prop :=
  ∀ v w, v ∈ X -> edge store v w -> w ∈ X.

Definition acyclic (store : Store) (X : gset Key) : Prop :=
  ∀ v, v ∈ X -> ¬ tc (edge store) v v.

Definition resolved (store : Store) (path : list Key) (X : gset Key) : Prop :=
  closed store X ∧ acyclic store X ∧ ∀ v, v ∈ X -> v ∉ path.


(** ** The Reconcile Scheduler

    The controller's reconcile loop, its apply executor and its pruner are
    not among the sources; what follows is sections 4.2 and 4.4 to 4.6 of
    the specification, with the error classes of section 7.  The
    collaborators of section 6 and the diff engine are taken as they answer
    during one attempt ([Env]); the scheduler reads the unit through the
    accessors above.  One attempt on one unit is modelled; the worker pool,
    and the cancelling of an attempt by a deletion that arrives while it
    runs, are not. *)

Record Object :=
  { objNamespace : string; objKind : string; objId : string }.

#[global] Instance Object_eq_dec : EqDecision Object.
Proof. solve_decision. Defined.

Inductive Operation :=
| Create (o : Object)
| Update (o : Object)
| Delete (o : Object).

#[global] Instance Operation_eq_dec : EqDecision Operation.
Proof. solve_decision. Defined.

(** The rendered manifest set and its content hash. *)
Record Manifests := { objects : list Object; checksum : string }.

(** What the cluster client can answer instead of accepting an
    operation. *)
Inductive ClientError := Conflict | Unavailable | Invalid.

Inductive OpFailure :=
| ValidationFailed
| Rejected (e : ClientError).

(** Conflicts and an unavailable server are worth a retry; a payload the
    server or the validation refuses is not. *)
Definition retryable (f : OpFailure) : bool :=
  match f with
  | Rejected Conflict | Rejected Unavailable => true
  | Rejected Invalid | ValidationFailed => false
  end.

Inductive Terminal := Success | TransientFailure | FatalFailure.

(** Modelled from the spec: the collaborators of section 6 and the diff
    engine, as they answer during one attempt: the clock, the fixed backoff
    after a gating failure, the units of the cluster, the revision the
    source is at and whether fetching it fails, the renderer's answer, the
    operations the diff engine asks for, the validation pre-check, the
    cluster's answer to an operation and the time an operation takes. *)
Record Env :=
  { now : Z;
    backoff : time.Duration;
    cluster : Store;
    revision : string;
    fetchError : option string;
    render : (Terminal * string) + Manifests;
    diff : string -> list Object -> list Operation;
    valid : Operation -> bool;
    submit : Operation -> option ClientError;
    cost : Operation -> time.Duration }.

(** Modelled from the spec:
    [AttemptResult{succeeded, failed[], aborted[]}]. *)
Record AttemptResult :=
  { succeeded : list Operation;
    failed : list (Operation * OpFailure);
    aborted : list Operation }.

Definition noResult : AttemptResult :=
  {| succeeded := []; failed := []; aborted := [] |}.

Definition addSucceeded (op : Operation) (r : AttemptResult) : AttemptResult :=
  {| succeeded := op :: succeeded r; failed := failed r;
     aborted := aborted r |}.

Definition addFailed (op : Operation) (f : OpFailure) (r : AttemptResult)
  : AttemptResult :=
  {| succeeded := succeeded r; failed := (op, f) :: failed r;
     aborted := aborted r |}.

Definition noFailures (r : AttemptResult) : bool :=
  match failed r, aborted r with
  | [], [] => true
  | _, _ => false
  end.

(** Modelled from the spec: the apply executor, missing from the sources.
    The operations run in order under one deadline: [remaining] is the time
    left.  Once it is used up the operations not yet started are aborted,
    and so is the one in flight when it runs out; a failure does not stop
    the operations after it. *)
Fixpoint execute (env : Env) (validate : bool) (ops : list Operation)
    (remaining : time.Duration) : AttemptResult * time.Duration :=
  match ops with
  | [] => (noResult, remaining)
  | op :: ops' =>
      if (remaining <=? 0)%Z
      then ({| succeeded := []; failed := []; aborted := op :: ops' |},
            remaining)
      else if validate && negb (valid env op)
      then
        let '(r, t) := execute env validate ops' remaining in
        (addFailed op ValidationFailed r, t)
      else if (remaining <? cost env op)%Z
      then ({| succeeded := []; failed := []; aborted := op :: ops' |}, 0%Z)
      else
        let '(r, t) := execute env validate ops' (remaining - cost env op)%Z in
        match submit env op with
        | None => (addSucceeded op r, t)
        | Some e => (addFailed op (Rejected e) r, t)
        end
  end.

(** *** Snapshot entries *)

Definition addObject (o : Object) (e : SnapshotEntries) : SnapshotEntries :=
  let kinds := default ∅ (e !! objNamespace o) in
  let ids := default ∅ (kinds !! objKind o) in
  <[objNamespace o := <[objKind o := {[objId o]} ∪ ids]> kinds]> e.

Definition entriesOf (objs : list Object) : SnapshotEntries :=
  foldr addObject ∅ objs.

Definition snapshotOf (m : Manifests) : Snapshot :=
  {| Checksum := checksum m; Entries := entriesOf (objects m) |}.

Definition objectsOf (e : SnapshotEntries) : list Object :=
  '(ns, kinds) ← map_to_list e;
  '(kind, ids) ← map_to_list kinds;
  id ← elements ids;
  [{| objNamespace := ns; objKind := kind; objId := id |}].

(** Modelled from the spec: the pruner's
    [staleSet = priorSnapshotEntries − newDesiredSet], by namespace, kind
    and identifier. *)
Definition staleSet (prior : option Snapshot) (desired : list Object)
  : list Object :=
  match prior with
  | Some s => filter (λ o, o ∉ desired) (objectsOf (Entries s))
  | None => []
  end.

(** *** The phases of one attempt *)

Inductive Outcome :=
| RenderFailed (class : Terminal) (reason : string)
| Executed (m : Manifests) (applied pruned : AttemptResult).

Inductive Phase :=
| Idle
| Suspended
| Gating
| Rendering
| Diffing (m : Manifests)
| Applying (m : Manifests) (ops : list Operation)
| Pruning (m : Manifests) (applied : AttemptResult) (remaining : time.Duration)
| Committing (o : Outcome)
| Deleting
| Requeue (after : time.Duration)
| Released.

Record Machine := { phase : Phase; theUnit : Konfiguration }.

Definition setStatus (st : KonfigurationStatus) (k : Konfiguration)
  : Konfiguration :=
  {| ObjectMeta := ObjectMeta k; Spec := Spec k; Status := st |}.

(** A condition keeps its [lastTransitionTime] unless its status
    changes. *)
Definition transition (t : Z) (s : ConditionStatus) (old : option Condition)
  : Z :=
  match old with
  | Some c =>
      match Status_ c, s with
      | ConditionTrue, ConditionTrue
      | ConditionFalse, ConditionFalse
      | ConditionUnknown, ConditionUnknown => LastTransitionTime c
      | _, _ => t
      end
  | None => t
  end.

Definition isType (ty : string) (c : Condition) : bool :=
  String.eqb (Type_ c) ty.

Definition setCondition (t gen : Z) (ty : string) (s : ConditionStatus)
    (reason message : string) (cs : list Condition) : list Condition :=
  let c := {| Type_ := ty; Status_ := s; Reason := reason;
              Message := message;
              LastTransitionTime := transition t s (find (isType ty) cs);
              CondObservedGeneration := gen |} in
  if existsb (isType ty) cs
  then map (λ c', if isType ty c' then c else c') cs
  else cs ++ [c].

(** Modelled from the spec: the revision tracker's
    [shouldRender(unit, resolvedRevision)].  Rendering is skipped when the
    revision is the one last applied, the generation is the one observed
    and the attempt before succeeded, which the [Ready] condition
    records. *)
Definition shouldRender (k : Konfiguration) (rev : string) : bool :=
  negb (String.eqb rev (LastAppliedRevision (Status k))
        && (ObservedGeneration (Status k)
            =? metav1.Generation (ObjectMeta k))%Z
        && hasReady k).

Definition hasFatal (r : AttemptResult) : bool :=
  existsb (λ f, negb (retryable f.2)) (failed r).

(** Modelled from the spec: the terminal result of an attempt. *)
Definition terminal (o : Outcome) : Terminal :=
  match o with
  | RenderFailed class _ => class
  | Executed _ a p =>
      if noFailures a && noFailures p then Success
      else if hasFatal a || hasFatal p then FatalFailure
      else TransientFailure
  end.

Definition failureReason (o : Outcome) : string :=
  match o with
  | RenderFailed _ _ => "RenderFailed"
  | Executed _ a p =>
      match aborted a, aborted p with
      | [], [] =>
          if existsb (λ f, match f.2 with ValidationFailed => true
                                     | _ => false end) (failed a)
          then "ValidationFailed"
          else if noFailures a then "PruneFailed"
          else "ReconciliationFailed"
      | _, _ => "Timeout"
      end
  end.

(** Modelled from the spec: [Committing], missing from the sources; the
    single status write of an attempt that got as far as rendering.
    [lastAttemptedRevision] is always written; [lastAppliedRevision], the
    Snapshot and [Ready=True] only when neither applying nor pruning remaining a
    failure. *)
Definition commit (env : Env) (k : Konfiguration) (o : Outcome)
  : Konfiguration :=
  let st := Status k in
  let gen := metav1.Generation (ObjectMeta k) in
  match o, terminal o with
  | Executed m _ _, Success =>
      setStatus
        {| ObservedGeneration := gen;
           LastAppliedRevision := revision env;
           LastAttemptedRevision := revision env;
           Conditions :=
             setCondition (now env) gen "Ready" ConditionTrue
               "ReconciliationSucceeded" (revision env) (Conditions st);
           Snapshot_ := Some (snapshotOf m) |} k
  | _, _ =>
      setStatus
        {| ObservedGeneration := gen;
           LastAppliedRevision := LastAppliedRevision st;
           LastAttemptedRevision := revision env;
           Conditions :=
             setCondition (now env) gen "Ready" ConditionFalse
               (failureReason o) (revision env) (Conditions st);
           Snapshot_ := Snapshot_ st |} k
  end.

(** A status write that changes the [Ready] condition and nothing else. *)
Definition setReady (env : Env) (k : Konfiguration) (s : ConditionStatus)
    (reason message : string) : Konfiguration :=
  let st := Status k in
  setStatus
    {| ObservedGeneration := ObservedGeneration st;
       LastAppliedRevision := LastAppliedRevision st;
       LastAttemptedRevision := LastAttemptedRevision st;
       Conditions :=
         setCondition (now env) (metav1.Generation (ObjectMeta k)) "Ready"
           s reason message (Conditions st);
       Snapshot_ := Snapshot_ st |} k.

(** A gating failure is reported as [Ready=Unknown]. *)
Definition gated (env : Env) (k : Konfiguration) (reason message : string)
  : Konfiguration :=
  setReady env k ConditionUnknown reason message.

(** The finalizer goes once everything listed in the Snapshot is
    deleted. *)
Definition finalizer : string := "finalizers.apps.kubecfg.io".

Definition releaseFinalizer (k : Konfiguration) : Konfiguration :=
  {| ObjectMeta :=
       {| metav1.Namespace := metav1.Namespace (ObjectMeta k);
          metav1.Name := metav1.Name (ObjectMeta k);
          metav1.Generation := metav1.Generation (ObjectMeta k);
          metav1.DeletionTimestamp := metav1.DeletionTimestamp (ObjectMeta k);
          metav1.Finalizers :=
            filter (λ f, f ≠ finalizer) (metav1.Finalizers (ObjectMeta k)) |};
     Spec := Spec k;
     Status := Status k |}.

(** What [Deleting] asks the pruner to delete: the full Snapshot. *)
Definition cleanupOps (k : Konfiguration) : list Operation :=
  if GCEnabled k
  then map Delete (staleSet (Snapshot_ (Status k)) [])
  else [].

Definition cleanupReport (env : Env) (k : Konfiguration) : AttemptResult :=
  (execute env false (cleanupOps k) (GetTimeout k)).1.

Definition requeueAfter (k : Konfiguration) (o : Outcome) : time.Duration :=
  match terminal o with
  | Success => GetInterval k
  | _ => GetRetryInterval k
  end.

Definition unitKey (k : Konfiguration) : Key := keyOf (GetDependsOn k).1.

(** The gate is asked about the unit as the attempt holds it, among the
    units of the cluster. *)
Definition gate (env : Env) (k : Konfiguration) : GateResult :=
  isReady (<[unitKey k := k]> (cluster env)) (unitKey k).

(** Modelled from the spec: one transition of the state machine of
    section 4.6, missing from the sources.  A unit that is being deleted
    is cleaned up whether it is suspended or not. *)
Definition step (env : Env) (s : Machine) : Machine :=
  let k := theUnit s in
  match phase s with
  | Idle =>
      match metav1.DeletionTimestamp (ObjectMeta k) with
      | Some _ => {| phase := Deleting; theUnit := k |}
      | None =>
          if IsSuspended k then {| phase := Suspended; theUnit := k |}
          else {| phase := Gating; theUnit := k |}
      end
  | Suspended => {| phase := Requeue (GetInterval k); theUnit := k |}
  | Gating =>
      match gate env k with
      | Ready => {| phase := Rendering; theUnit := k |}
      | NotReady reason =>
          {| phase := Requeue (backoff env);
             theUnit := gated env k "DependencyNotReady" reason |}
      | Cycle =>
          {| phase := Requeue (backoff env);
             theUnit := gated env k "DependencyCycle" "dependency cycle" |}
      end
  | Rendering =>
      if shouldRender k (revision env) then
        match fetchError env, render env with
        | Some reason, _ =>
            {| phase := Committing (RenderFailed TransientFailure reason);
               theUnit := k |}
        | None, inl (class, reason) =>
            {| phase := Committing (RenderFailed class reason); theUnit := k |}
        | None, inr m => {| phase := Diffing m; theUnit := k |}
        end
      else {| phase := Requeue (GetInterval k); theUnit := k |}
  | Diffing m =>
      {| phase := Applying m (diff env (GetDiffStrategy k) (objects m));
         theUnit := k |}
  | Applying m ops =>
      let '(a, remaining) := execute env (ValidateEnabled k) ops (GetTimeout k) in
      if noFailures a
      then {| phase := Pruning m a remaining; theUnit := k |}
      else {| phase := Committing (Executed m a noResult); theUnit := k |}
  | Pruning m a remaining =>
      let stale :=
        if GCEnabled k
        then map Delete (staleSet (Snapshot_ (Status k)) (objects m))
        else [] in
      {| phase := Committing (Executed m a (execute env false stale remaining).1);
         theUnit := k |}
  | Committing o =>
      {| phase := Requeue (requeueAfter k o); theUnit := commit env k o |}
  | Deleting =>
      if noFailures (cleanupReport env k)
      then {| phase := Released; theUnit := releaseFinalizer k |}
      else {| phase := Requeue (GetRetryInterval k);
              theUnit := setReady env k ConditionFalse "PruneFailed"
                           "cleanup is not complete" |}
  | Requeue _ | Released => s
  end.

Fixpoint run (n : nat) (env : Env) (s : Machine) : Machine :=
  match n with
  | O => s
  | S n' => run n' env (step env s)
  end.

(** Modelled from the spec: [reconcile(unit) -> nextRequeueAfter], missing
    from the sources.  The longest way through the phases takes seven
    transitions. *)
Definition reconcile (env : Env) (k : Konfiguration) : Machine :=
  run 7 env {| phase := Idle; theUnit := k |}.

(** What [Applying] and [Pruning] report in an attempt on [k] that has
    rendered [m]. *)
Definition applyReport (env : Env) (k : Konfiguration) (m : Manifests)
  : AttemptResult * time.Duration :=
  execute env (ValidateEnabled k)
    (diff env (GetDiffStrategy k) (objects m)) (GetTimeout k).

Definition pruneOps (k : Konfiguration) (m : Manifests) : list Operation :=
  if GCEnabled k
  then map Delete (staleSet (Snapshot_ (Status k)) (objects m))
  else [].

Definition pruneReport (env : Env) (k : Konfiguration) (m : Manifests)
  : AttemptResult :=
  (execute env false (pruneOps k m) (applyReport env k m).2).1.

(** The attempt in one piece: where the transitions lead from [Idle]. *)
Definition attempt (env : Env) (k : Konfiguration) : Machine :=
  if decide (is_Some (metav1.DeletionTimestamp (ObjectMeta k))) then
    if noFailures (cleanupReport env k)
    then {| phase := Released; theUnit := releaseFinalizer k |}
    else {| phase := Requeue (GetRetryInterval k);
            theUnit := setReady env k ConditionFalse "PruneFailed"
                         "cleanup is not complete" |}
  else if IsSuspended k
  then {| phase := Requeue (GetInterval k); theUnit := k |}
  else
    match gate env k with
    | NotReady reason =>
        {| phase := Requeue (backoff env);
           theUnit := gated env k "DependencyNotReady" reason |}
    | Cycle =>
        {| phase := Requeue (backoff env);
           theUnit := gated env k "DependencyCycle" "dependency cycle" |}
    | Ready =>
        if shouldRender k (revision env) then
          let o :=
            match fetchError env, render env with
            | Some reason, _ => RenderFailed TransientFailure reason
            | None, inl (class, reason) => RenderFailed class reason
            | None, inr m =>
                let a := (applyReport env k m).1 in
                Executed m a
                  (if noFailures a then pruneReport env k m else noResult)
            end in
          {| phase := Requeue (requeueAfter k o); theUnit := commit env k o |}
        else {| phase := Requeue (GetInterval k); theUnit := k |}
    end.

(** An attempt in which nothing fails: the unit is neither being deleted
    nor suspended, its dependencies are ready, there is something new to
    render, source and renderer answer, and neither applying nor pruning
    reports a failure. *)
Definition succeeds (env : Env) (k : Konfiguration) (m : Manifests) : Prop :=
  metav1.DeletionTimestamp (ObjectMeta k) = None ∧
  IsSuspended k = false ∧ gate env k = Ready ∧
  shouldRender k (revision env) = true ∧
  fetchError env = None ∧ render env = inr m ∧
  noFailures (applyReport env k m).1 = true ∧
  noFailures (pruneReport env k m) = true.

(** The attempts of one unit follow one another. *)
Definition attempts (envs : list Env) (k : Konfiguration) : Konfiguration :=
  foldl (λ k env, theUnit (reconcile env k)) k envs.


(** * Sample units, clusters and attempts *)

(** Both optional fields set: a unit reconciled every 5 minutes, retried
    after 30 seconds, with a 2 minute timeout. *)
Definition sampleSpec : KonfigurationSpec :=
  {| DependsOn := [{| dependency.Namespace := ""; dependency.Name := "db" |};
                   {| dependency.Namespace := "infra";
                      dependency.Name := "ingress" |}];
     DiffStrategy := "subset";
     Interval := {| metav1.Duration_ := 300000000000%Z |};
     KubeConfig_ := None;
     KubecfgArgs := [];
     Path := "manifests/app.jsonnet";
     Prune := true;
     RetryInterval := Some {| metav1.Duration_ := 30000000000%Z |};
     SourceRef := Some {| APIVersion := "source.toolkit.fluxcd.io/v1beta1";
                          Kind := "GitRepository";
                          Name := "repo";
                          Namespace := "" |};
     Suspend := false;
     Timeout := Some {| metav1.Duration_ := 120000000000%Z |};
     Validate := true;
     Variables_ := None |}.

Definition noStatus : KonfigurationStatus :=
  {| ObservedGeneration := 0%Z;
     LastAppliedRevision := "";
     LastAttemptedRevision := "";
     Conditions := [];
     Snapshot_ := None |}.

Definition sample : Konfiguration :=
  {| ObjectMeta := {| metav1.Namespace := "prod"; metav1.Name := "app";
                      metav1.Generation := 1%Z;
                      metav1.DeletionTimestamp := None;
                      metav1.Finalizers := [finalizer] |};
     Spec := sampleSpec;
     Status := noStatus |}.

(** A cluster holding one secret, [prod/remote], with a [value] key. *)
Definition sampleClient : client.Client :=
  λ nn,
    if String.eqb (types.Namespace nn) "prod"
       && String.eqb (types.Name nn) "remote"
    then inl {| corev1.Namespace := "prod";
                corev1.SecretName := "remote";
                corev1.Data :=
                  Some {[ "value" := [Byte.x6b; Byte.x38; Byte.x73] ]} |}
    else inr (clientError "NotFound").

Definition sampleKubeConfig (name : string) : KubeConfig :=
  {| SecretRef := {| corev1.Name := name |} |}.


(** A submitted [spec] with only the required properties. *)
Definition minimalSpec : SubmittedSpec :=
  {| sDependsOn := None;
     sDiffStrategy := None;
     sInterval := Some {| metav1.Duration_ := 300000000000%Z |};
     sKubeConfig := None;
     sKubecfgArgs := None;
     sPath := Some "manifests/app.jsonnet";
     sPrune := Some true;
     sRetryInterval := None;
     sSourceRef := None;
     sSuspend := None;
     sTimeout := None;
     sValidate := None;
     sVariables := None |}.

Definition withSpec (s : KonfigurationSpec) : Konfiguration :=
  {| ObjectMeta := ObjectMeta sample; Spec := s; Status := noStatus |}.

(** Variables with one external string and one top-level code argument. *)
Definition sampleVariables : Variables :=
  {| ExtStr := {[ "env" := "prod" ]};
     ExtCode := ∅;
     TLAStr := ∅;
     TLACode := {[ "replicas" := "3" ]} |}.

(** Two external strings: [range] may hand them out either way round. *)
Definition twoVariables : Variables :=
  {| ExtStr := {[ "a" := "1"; "b" := "2" ]};
     ExtCode := ∅;
     TLAStr := ∅;
     TLACode := ∅ |}.

(** *** Dependency graphs *)

Definition dependsOn (name : string)
  : dependency.CrossNamespaceDependencyReference :=
  {| dependency.Namespace := ""; dependency.Name := name |}.

Definition readyCondition : Condition :=
  {| Type_ := "Ready"; Status_ := ConditionTrue;
     Reason := "ReconciliationSucceeded"; Message := "";
     LastTransitionTime := 0%Z; CondObservedGeneration := 1%Z |}.

(** A unit of namespace [prod] with the given entries, ready or not. *)
Definition unitOf (name : string) (ds : list string) (ready : bool)
  : Konfiguration :=
  {| ObjectMeta := {| metav1.Namespace := "prod"; metav1.Name := name;
                      metav1.Generation := 1%Z;
                      metav1.DeletionTimestamp := None;
                      metav1.Finalizers := [finalizer] |};
     Spec := setDependsOn (map dependsOn ds) sampleSpec;
     Status :=
       {| ObservedGeneration := 1%Z;
          LastAppliedRevision := "";
          LastAttemptedRevision := "";
          Conditions := if ready then [readyCondition] else [];
          Snapshot_ := None |} |}.

Definition storeOf (us : list Konfiguration) : Store :=
  list_to_map (map (λ k, (unitKey k, k)) us).

(** A depends on B and B on A. *)
Definition cycleStore : Store :=
  storeOf [unitOf "a" ["b"] true; unitOf "b" ["a"] true].

(** A diamond: A depends on B and C, both of which depend on D. *)
Definition diamondStore : Store :=
  storeOf [unitOf "a" ["b"; "c"] false; unitOf "b" ["d"] true;
           unitOf "c" ["d"] true; unitOf "d" [] true].

(** *** Attempts: two objects rendered *)

Definition D1 : Object :=
  {| objNamespace := "prod"; objKind := "Deployment"; objId := "D1" |}.

Definition S1 : Object :=
  {| objNamespace := "prod"; objKind := "Service"; objId := "S1" |}.

(** The unit [prod/app], waiting on [prod/db], which is ready. *)
Definition appUnit : Konfiguration := unitOf "app" ["db"] false.

Definition sampleStore : Store := storeOf [unitOf "db" [] true].

Definition sampleEnv : Env :=
  {| now := 1000%Z;
     backoff := 5000000000%Z;
     cluster := sampleStore;
     revision := "main/4f2a";
     fetchError := None;
     render := inr {| objects := [D1; S1]; checksum := "c0ffee" |};
     diff := λ _ objs, map Create objs;
     valid := λ _, true;
     submit := λ _, None;
     cost := λ _, 1000000000%Z |}.

(** The same attempt with the cluster refusing the Service. *)
Definition conflictEnv : Env :=
  {| now := now sampleEnv;
     backoff := backoff sampleEnv;
     cluster := cluster sampleEnv;
     revision := revision sampleEnv;
     fetchError := None;
     render := render sampleEnv;
     diff := diff sampleEnv;
     valid := valid sampleEnv;
     submit := λ op, if decide (op = Create S1) then Some Conflict else None;
     cost := cost sampleEnv |}.

(** The next revision drops the Service: nothing to create or update, and
    the Service is stale. *)
Definition nextEnv : Env :=
  {| now := 2000%Z;
     backoff := backoff sampleEnv;
     cluster := cluster sampleEnv;
     revision := "main/9b1c";
     fetchError := None;
     render := inr {| objects := [D1]; checksum := "decade" |};
     diff := λ _ _, [];
     valid := λ _, true;
     submit := λ _, None;
     cost := cost sampleEnv |}.

(** The same, with the delete of the Service timing out on the server. *)
Definition nextEnvPruneFails : Env :=
  {| now := now nextEnv;
     backoff := backoff nextEnv;
     cluster := cluster nextEnv;
     revision := revision nextEnv;
     fetchError := None;
     render := render nextEnv;
     diff := diff nextEnv;
     valid := valid nextEnv;
     submit := λ op, if decide (op = Delete S1) then Some Unavailable else None;
     cost := cost nextEnv |}.

(** *** Manifests *)

(** A manifest with only the required properties of [spec], and one
    without [spec]. *)
Definition minimalManifest : Manifest := {| mSpec := Some minimalSpec |}.

Definition bareManifest : Manifest := {| mSpec := None |}.

(** The unit of [minimalManifest]: interval given, retry interval and
    timeout left out. *)
Definition plainUnit : Konfiguration :=
  withSpec (decode (applyDefaults minimalSpec)).



(** * Further definitions *)

From Stdlib Require Import Ascii.

(** ** Accessors, one after another *)

#[global] Instance Accessor_eq_dec : EqDecision Accessor.
Proof. solve_decision. Defined.

(** The unit after a sequence of accessor calls. *)
Definition calls (accs : list Accessor) (k : Konfiguration) : Konfiguration :=
  foldl (λ k a, (call a k).2) k accs.

(** ** The arguments [AppendToArgs] formats *)

(** Whether a key holds the separator of [fmt.Sprintf("%s=%s", k, v)]. *)
Fixpoint hasEquals (s : string) : bool :=
  match s with
  | EmptyString => false
  | String c s' => Ascii.eqb c "="%char || hasEquals s'
  end.

Definition plainKeys (m : gmap string string) : Prop :=
  ∀ key val, m !! key = Some val -> hasEquals key = false.

(** The mapping that the pair at position [i] comes from, with its flag:
    the four loops run one after the other. *)
Definition blockOf (v : Variables) (i : nat) : string * gmap string string :=
  if decide (i < size (ExtStr v)) then ("--ext-str", ExtStr v)
  else if decide (i < size (ExtStr v) + size (ExtCode v))
  then ("--ext-code", ExtCode v)
  else if decide (i < size (ExtStr v) + size (ExtCode v) + size (TLAStr v))
  then ("--tla-str", TLAStr v)
  else ("--tla-code", TLACode v).

(** ** What [Fetch] looks at *)

(** Two answers of the client that [Fetch] cannot tell apart: the same
    error, or secrets of the same name whose data are both nil or agree on
    the [value] key. *)
Definition sameForFetch (r r' : corev1.Secret + error) : Prop :=
  match r, r' with
  | inr e, inr e' => e = e'
  | inl s, inl s' =>
      corev1.Namespace s = corev1.Namespace s' ∧
      corev1.SecretName s = corev1.SecretName s' ∧
      match corev1.Data s, corev1.Data s' with
      | None, None => True
      | Some d, Some d' => d !! "value" = d' !! "value"
      | _, _ => False
      end
  | _, _ => False
  end.

(** ** Samples for the helpers *)

Definition noVariables : Variables :=
  {| ExtStr := ∅; ExtCode := ∅; TLAStr := ∅; TLACode := ∅ |}.

(** A client whose secret [prod/remote] carries further keys. *)
Definition otherClient : client.Client :=
  λ nn,
    if String.eqb (types.Namespace nn) "prod"
       && String.eqb (types.Name nn) "remote"
    then inl {| corev1.Namespace := "prod";
                corev1.SecretName := "remote";
                corev1.Data :=
                  Some {[ "value" := [Byte.x6b; Byte.x38; Byte.x73];
                          "token" := [Byte.x00] ]} |}
    else inr (clientError "Forbidden").

(** A secret without data, and one with data but no [value] key. *)
Definition bareSecret : corev1.Secret :=
  {| corev1.Namespace := "prod"; corev1.SecretName := "bare";
     corev1.Data := None |}.

Definition bareClient : client.Client := λ _, inl bareSecret.

(** Keys that hold the separator. *)
Definition ambiguousVariables : Variables :=
  {| ExtStr := {[ "a" := "=b"; "a=" := "b" ]};
     ExtCode := ∅;
     TLAStr := ∅;
     TLACode := ∅ |}.

(** A submitted [spec] with a source, timing and switches given. *)
Definition fullSpec : SubmittedSpec :=
  {| sDependsOn := Some [{| dName := Some "db"; dNamespace := None |}];
     sDiffStrategy := Some "last-applied";
     sInterval := Some {| metav1.Duration_ := 300000000000%Z |};
     sKubeConfig := None;
     sKubecfgArgs := None;
     sPath := Some "manifests/app.jsonnet";
     sPrune := Some false;
     sRetryInterval := Some {| metav1.Duration_ := 30000000000%Z |};
     sSourceRef := Some {| sAPIVersion := None;
                           sKind := Some "Bucket";
                           sName := Some "artifacts";
                           sNamespace := None |};
     sSuspend := Some true;
     sTimeout := None;
     sValidate := Some false;
     sVariables := None |}.

(** ** The slice [AppendToArgs] appends to

    [args = append(args, ...)] works on a Go slice: a window on a backing
    array that other slices may share.  The value of the result is what
    [AppendToArgs_in] gives; where the elements are written is what
    follows. *)

(** A slice: [len] elements, from [offset] on, of the array at address
    [array]; its capacity reaches to the end of that array.  The method
    never compares its argument with nil, so a nil slice is a slice
    without elements and without capacity: one on an empty array. *)
Record slice := { array : nat; offset : nat; len : nat }.

(** The backing arrays, by address. *)
Abbreviation Arrays := (gmap nat (list string)).

Definition backing (h : Arrays) (s : slice) : list string :=
  default [] (h !! array s).

Definition cap (h : Arrays) (s : slice) : nat :=
  length (backing h s) - offset s.

(** The elements a slice shows. *)
Definition view (h : Arrays) (s : slice) : list string :=
  take (len s) (drop (offset s) (backing h s)).

(** A slice of an array that is there, within the array. *)
Definition inBounds (h : Arrays) (s : slice) : Prop :=
  is_Some (h !! array s) ∧ offset s + len s ≤ length (backing h s).

(** [append(s, x, y)]: with room for two more elements they are written
    into the backing array, right after the elements of [s]; without, a
    new array is allocated, large enough for the elements of [s] and the
    two, the elements are copied and the rest is zeroed.  How much larger
    the new array is, is up to the runtime ([grow], from the old capacity
    and the length needed).  The slice literal that carries the two
    elements into the call is temporary and is left out. *)
Definition append2 (grow : nat -> nat -> nat) (h : Arrays) (s : slice)
    (x y : string) : Arrays * slice :=
  if decide (len s + 2 ≤ cap h s) then
    (<[array s := <[offset s + len s + 1 := y]>
                    (<[offset s + len s := x]> (backing h s))]> h,
     {| array := array s; offset := offset s; len := len s + 2 |})
  else
    let a := fresh (dom h) in
    (<[a := view h s ++ [x; y]
            ++ replicate (grow (cap h s) (len s + 2) - (len s + 2)) ""]> h,
     {| array := a; offset := 0; len := len s + 2 |}).

(** One loop of the method on a slice. *)
Definition appendFlag_slice (grow : nat -> nat -> nat) (flag : string)
    (es : list (string * string)) (hs : Arrays * slice) : Arrays * slice :=
  fold_left (λ hs e, append2 grow hs.1 hs.2 flag (e.1 +:+ "=" +:+ e.2)) es hs.

(** The four loops on a slice, for given iteration orders. *)
Definition AppendToArgs_slice (grow : nat -> nat -> nat)
    (o1 o2 o3 o4 : list (string * string)) (hs : Arrays * slice)
  : Arrays * slice :=
  appendFlag_slice grow "--tla-code" o4
    (appendFlag_slice grow "--tla-str" o3
       (appendFlag_slice grow "--ext-code" o2
          (appendFlag_slice grow "--ext-str" o1 hs))).

(** The appends of the four loops as one sequence. *)
Definition appendAll (grow : nat -> nat -> nat)
    (t : list (string * (string * string))) (hs : Arrays * slice)
  : Arrays * slice :=
  fold_left (λ hs p, append2 grow hs.1 hs.2 p.1 (p.2.1 +:+ "=" +:+ p.2.2))
    t hs.

(** A slice [t] that the appends to [s] leave alone: it lies in another
    array, or ends no later than [s] does. *)
Definition clearOf (s t : slice) : Prop :=
  array t ≠ array s ∨ offset t + len t ≤ offset s + len s.

(** Growth by doubling. *)
Definition doubling (c n : nat) : nat := max (2 * c) n.

(** An array of eight with [kubecfg show] in front, and the slice of
    these two. *)
Definition roomyArrays : Arrays :=
  {[ 0 := ["kubecfg"; "show"; ""; ""; ""; ""; ""; ""] ]}.

Definition fullArrays : Arrays := {[ 0 := ["kubecfg"; "show"] ]}.

Definition baseSlice : slice := {| array := 0; offset := 0; len := 2 |}.

(** ** The reference [GetSourceRef] returns

    [Spec.SourceRef] is a pointer, and [GetSourceRef] returns that pointer
    and writes through it.  The references are kept by address. *)

Abbreviation Refs := (gmap nat CrossNamespaceSourceReference).

(** The unit [k] lies in memory with [p] as its [Spec.SourceRef]: nil for
    a unit without a source reference, and otherwise the address of the
    reference. *)
Definition heldAt (h : Refs) (p : option nat) (k : Konfiguration) : Prop :=
  match p with
  | Some a => ∃ r, h !! a = Some r ∧ SourceRef (Spec k) = Some r
  | None => SourceRef (Spec k) = None
  end.

(** [GetSourceRef] on a unit of namespace [ns] whose [Spec.SourceRef] is
    [p]: the pointer returned and the references after the call.  A
    pointer that is not nil points to a reference; the last case does not
    arise. *)
Definition GetSourceRef_ptr (ns : string) (p : option nat) (h : Refs)
  : option nat * Refs :=
  match p with
  | Some a =>
      match h !! a with
      | Some r =>
          if String.eqb (Namespace r) ""
          then (Some a, <[a := setNamespace ns r]> h)
          else (Some a, h)
      | None => (Some a, h)
      end
  | None => (None, h)
  end.

(** What a pointer points to. *)
Definition deref (h : Refs) (p : option nat)
  : option CrossNamespaceSourceReference :=
  p ≫= λ a, h !! a.

(** ** Calls through a pointer that may be nil

    [GetVariables] and [GetKubeConfig] return the pointer of the spec,
    which is nil when the manifest leaves the property out; the methods
    called on them read a field of the receiver first thing. *)

Inductive Called (A : Type) :=
| Returns (a : A)
| Panics.
Arguments Returns {A} a.
Arguments Panics {A}.

(** [v.AppendToArgs(args)] for a receiver that may be nil:
    [range v.ExtStr] dereferences it. *)
Definition AppendToArgs_on (v : option Variables) (args : list string)
    (o : Called (list string)) : Prop :=
  match v with
  | Some v' => ∃ out, o = Returns out ∧ AppendToArgs v' args out v'
  | None => o = Panics
  end.

(** [k.Fetch(ctx, c, namespace)] for a receiver that may be nil:
    [k.SecretRef.Name] dereferences it. *)
Definition Fetch_on (k : option KubeConfig) (c : client.Client)
    (namespace : string) : Called (string * option error) :=
  match k with
  | Some k' => Returns (Fetch k' c namespace)
  | None => Panics
  end.


(** * Properties *)

(** ** Intervals and timeout *)

(** C2.  [GetInterval] is the [interval] of [spec].  [GetRetryInterval] is
    the configured [retryInterval] when set and that interval otherwise;
    [GetTimeout] is the configured [timeout] when set and that interval
    otherwise; with both unset the three accessors return the same
    duration, the [interval] of [spec]. *)
Theorem retry_and_timeout_default_to_interval (k : Konfiguration) :
  GetInterval k = metav1.Duration_ (Interval (Spec k)) ∧
  (∀ d, RetryInterval (Spec k) = Some d ->
        GetRetryInterval k = metav1.Duration_ d) ∧
  (RetryInterval (Spec k) = None ->
   GetRetryInterval k = metav1.Duration_ (Interval (Spec k))) ∧
  (∀ d, Timeout (Spec k) = Some d -> GetTimeout k = metav1.Duration_ d) ∧
  (Timeout (Spec k) = None ->
   GetTimeout k = metav1.Duration_ (Interval (Spec k))) ∧
  (RetryInterval (Spec k) = None -> Timeout (Spec k) = None ->
   GetRetryInterval k = GetInterval k ∧ GetTimeout k = GetInterval k
   ∧ GetRetryInterval k = GetTimeout k
   ∧ GetRetryInterval k = metav1.Duration_ (Interval (Spec k))
   ∧ GetTimeout k = metav1.Duration_ (Interval (Spec k))).
Proof.
  unfold GetRetryInterval, GetTimeout, GetInterval.
  repeat split; intros; repeat match goal with H : _ = _ |- _ => rewrite H end;
    reflexivity.
Qed.

(** On [sample] both are set, to thirty seconds and two minutes; on
    [plainUnit] both are unset and the interval of five minutes comes
    back from all three. *)
Lemma retry_and_timeout_witness :
  (GetRetryInterval sample = 30000000000%Z ∧
   GetTimeout sample = 120000000000%Z) ∧
  (GetRetryInterval plainUnit = 300000000000%Z ∧
   GetTimeout plainUnit = 300000000000%Z ∧
   GetInterval plainUnit = 300000000000%Z ∧
   GetRetryInterval plainUnit = GetTimeout plainUnit).
Proof.
  destruct (retry_and_timeout_default_to_interval sample)
    as (_ & Hr & _ & Ht & _).
  destruct (retry_and_timeout_default_to_interval plainUnit)
    as (Hi & _ & Hr' & _ & Ht' & Hboth).
  destruct (Hboth eq_refl eq_refl) as (_ & _ & Hsame & _).
  split; [split; [exact (Hr _ eq_refl) | exact (Ht _ eq_refl)]|].
  split; [exact (Hr' eq_refl)|].
  split; [exact (Ht' eq_refl)|].
  split; [exact Hi | exact Hsame].
Defined.

(** ** KubeConfig.Fetch *)

(** C1.  [Fetch] returns the bytes under the secret's [value] key as a
    string, with no error, when the secret is there and has the key; it
    returns the empty string and an error exactly when the read of the
    secret fails, the secret's data is nil, or the data has no [value] key;
    and it returns nothing else. *)
Theorem Fetch_outcomes (k : KubeConfig) (c : client.Client)
    (namespace : string) :
  let nn := {| types.Namespace := namespace;
               types.Name := corev1.Name (SecretRef k) |} in
  (∀ secret data bytes,
      c nn = inl secret -> corev1.Data secret = Some data ->
      data !! "value" = Some bytes ->
      Fetch k c namespace = (String.string_of_list_byte bytes, None)) ∧
  (∀ err, c nn = inr err -> Fetch k c namespace = ("", Some err)) ∧
  (∀ secret,
      c nn = inl secret -> corev1.Data secret = None ->
      Fetch k c namespace = ("", Some (secretError secret "data"))) ∧
  (∀ secret data,
      c nn = inl secret -> corev1.Data secret = Some data ->
      data !! "value" = None ->
      Fetch k c namespace = ("", Some (secretError secret "'value' key"))) ∧
  ((Fetch k c namespace).2 ≠ None ↔
   (∃ err, c nn = inr err) ∨
   (∃ secret, c nn = inl secret ∧
      (corev1.Data secret = None ∨
       ∃ data, corev1.Data secret = Some data ∧ data !! "value" = None))) ∧
  ((∃ bytes, Fetch k c namespace = (String.string_of_list_byte bytes, None))
   ∨ (∃ err, Fetch k c namespace = ("", Some err))).
Proof.
  intros nn. unfold Fetch. fold nn.
  destruct (c nn) as [secret|err] eqn:Hget; simpl.
  - destruct (corev1.Data secret) as [data|] eqn:Hdata; simpl.
    + destruct (data !! "value") as [bytes|] eqn:Hval; simpl.
      * split_and!; try (intros; simplify_eq; done).
        -- split; [done|].
           intros [(err & ?)|(s' & ? & [?|(d' & ? & ?)])]; simplify_eq.
        -- left. by exists bytes.
      * split_and!; try (intros; simplify_eq; done).
        -- split; [|done]. intros _. right. exists secret.
           split; [done|]. right. by exists data.
        -- right. by eexists.
    + split_and!; try (intros; simplify_eq; done).
      * split; [|done]. intros _. right. exists secret.
        split; [done|]. by left.
      * right. by eexists.
  - split_and!; try (intros; simplify_eq; done).
    + split; [|done]. intros _. left. by exists err.
    + right. by eexists.
Qed.

Lemma Fetch_outcomes_witness :
  Fetch (sampleKubeConfig "remote") sampleClient "prod" = ("k8s", None) ∧
  Fetch (sampleKubeConfig "absent") sampleClient "prod"
  = ("", Some (clientError "NotFound")).
Proof.
  split.
  - destruct (Fetch_outcomes (sampleKubeConfig "remote") sampleClient "prod")
      as (Hok & _).
    exact (Hok _ _ [Byte.x6b; Byte.x38; Byte.x73] eq_refl eq_refl eq_refl).
  - destruct (Fetch_outcomes (sampleKubeConfig "absent") sampleClient "prod")
      as (_ & Herr & _).
    exact (Herr _ eq_refl).
Defined.

(** ** The diff strategy *)

Lemma inEnum_Some enum x : inEnum enum (Some x) = true -> x ∈ enum.
Proof.
  simpl. intros (y & Hy & Heq)%existsb_exists.
  apply String.eqb_eq in Heq as ->. by apply list_elem_of_In.
Qed.

(** Where the manifest carries a [spec] that the schema accepted, the
    strategy is one of the three, and [subset] when the property was left
    out. *)
Lemma accepted_DiffStrategy (s : SubmittedSpec) (k : Konfiguration) :
  accept s = Some (Spec k) ->
  GetDiffStrategy k ∈ ["all"; "subset"; "last-applied"] ∧
  (sDiffStrategy s = None -> GetDiffStrategy k = "subset").
Proof.
  unfold accept, GetDiffStrategy.
  destruct (validSpec (applyDefaults s)) eqn:Hv; [|discriminate].
  intros [= <-].
  unfold validSpec in Hv. repeat apply andb_prop in Hv as [Hv ?].
  match goal with H : inEnum diffStrategyEnum _ = true |- _ => rename H into He end.
  simpl in *. destruct (sDiffStrategy s) as [d|]; simpl.
  - split; [by apply (inEnum_Some diffStrategyEnum) | discriminate].
  - split; [|done]. apply list_elem_of_further, list_elem_of_here.
Qed.

(** C7, as stated: every unit that passed the validation of the schema
    has one of the three strategies.  The schema does not require [spec]:
    [bareManifest] passes, nothing is defaulted under the missing [spec],
    and [GetDiffStrategy] returns the empty string. *)
Lemma GetDiffStrategy_without_spec :
  ¬ (∀ (m : Manifest) (k : Konfiguration),
       stored m = Some (Spec k) ->
       GetDiffStrategy k ∈ ["all"; "subset"; "last-applied"]).
Proof.
  intros H. specialize (H bareManifest (withSpec zeroSpec) eq_refl).
  repeat (apply elem_of_cons in H as [H|H]; [discriminate H|]).
  by apply elem_of_nil in H.
Qed.

(** C7, amended.  On a unit that passed the validation of the schema: if
    its manifest carries a [spec], [GetDiffStrategy] returns one of the
    three strategies, and [subset] when the property was left out of that
    [spec]; if its manifest carries no [spec], [GetDiffStrategy] returns
    the empty string. *)
Theorem GetDiffStrategy_stored (m : Manifest) (k : Konfiguration) :
  stored m = Some (Spec k) ->
  (∀ s, mSpec m = Some s ->
        GetDiffStrategy k ∈ ["all"; "subset"; "last-applied"] ∧
        (sDiffStrategy s = None -> GetDiffStrategy k = "subset")) ∧
  (mSpec m = None -> GetDiffStrategy k = "").
Proof.
  unfold stored. intros H. split.
  - intros s Hs. rewrite Hs in H. by apply (accepted_DiffStrategy s).
  - intros Hs. rewrite Hs in H. injection H as H.
    unfold GetDiffStrategy. by rewrite <- H.
Qed.

Lemma GetDiffStrategy_stored_witness :
  GetDiffStrategy plainUnit = "subset" ∧
  GetDiffStrategy (withSpec zeroSpec) = "".
Proof.
  destruct (GetDiffStrategy_stored minimalManifest plainUnit eq_refl)
    as [Hwith _].
  destruct (GetDiffStrategy_stored bareManifest (withSpec zeroSpec) eq_refl)
    as [_ Hwithout].
  split; [exact (proj2 (Hwith minimalSpec eq_refl) eq_refl)
         | exact (Hwithout eq_refl)].
Defined.

(** ** GetDependsOn *)

(** C5, as stated: an entry without a namespace comes back with the unit's
    own.  It does not: [sample], in namespace [prod], lists [db] without a
    namespace, and [GetDependsOn] hands the entry back as it is. *)
Lemma GetDependsOn_does_not_default :
  ¬ (∀ (k : Konfiguration) (i : nat) d,
        DependsOn (Spec k) !! i = Some d ->
        dependency.Namespace d = "" ->
        ∃ d', (GetDependsOn k).2 !! i = Some d' ∧
              dependency.Name d' = dependency.Name d ∧
              dependency.Namespace d' = GetNamespace k).
Proof.
  intros H.
  destruct (H sample 0 {| dependency.Namespace := ""; dependency.Name := "db" |}
              eq_refl eq_refl) as (d' & Hd' & _ & Hns).
  simpl in Hd'. inversion Hd'; subst d'. discriminate Hns.
Qed.

(** C5, amended.  [GetDependsOn] returns the unit's own namespaced name and,
    next to it, the [dependsOn] list as stored: every entry, with or
    without a namespace, comes back unchanged.  Read against the name
    returned with it, as the gate does, an entry without a namespace is in
    the unit's own namespace and any other keeps its own. *)
Theorem GetDependsOn_returns_own_name_and_raw_list (k : Konfiguration) :
  (GetDependsOn k).1
  = {| types.Namespace := GetNamespace k; types.Name := GetName k |} ∧
  (GetDependsOn k).2 = DependsOn (Spec k) ∧
  (∀ i, (GetDependsOn k).2 !! i = DependsOn (Spec k) !! i) ∧
  (∀ d, depKey (GetDependsOn k).1 d
        = (if decide (dependency.Namespace d = "")
           then GetNamespace k else dependency.Namespace d,
           dependency.Name d)).
Proof.
  repeat split. intros d. unfold depKey. simpl.
  destruct (String.eqb_spec (dependency.Namespace d) "") as [->|Hne].
  - done.
  - by rewrite decide_False.
Qed.

(** ** GetSourceRef *)

(** C8.  [GetSourceRef] returns nil exactly when [sourceRef] is unset;
    otherwise it returns the reference with an empty namespace replaced by
    the unit's own; and a second call returns the same reference and
    leaves the unit as the first call left it. *)
Theorem GetSourceRef_defaults_and_is_idempotent (k : Konfiguration) :
  ((GetSourceRef k).1 = None ↔ SourceRef (Spec k) = None) ∧
  (∀ r, SourceRef (Spec k) = Some r ->
        (GetSourceRef k).1
        = Some (if decide (Namespace r = "")
                then setNamespace (GetNamespace k) r else r)
        ∧ SourceRef (Spec (GetSourceRef k).2) = (GetSourceRef k).1) ∧
  GetSourceRef (GetSourceRef k).2 = GetSourceRef k.
Proof.
  unfold GetSourceRef.
  destruct (SourceRef (Spec k)) as [r|] eqn:Hr.
  - destruct (String.eqb_spec (Namespace r) "") as [Hns|Hns]; simpl.
    + split; [done|]. split.
      * intros ? [= <-]. by rewrite decide_True.
      * unfold GetNamespace. simpl.
        destruct (String.eqb_spec (metav1.Namespace (ObjectMeta k)) "")
          as [->|_]; reflexivity.
    + rewrite Hr. split; [done|]. split.
      * intros ? [= <-]. by rewrite decide_False.
      * destruct (String.eqb_spec (Namespace r) ""); done.
  - simpl. rewrite Hr. split; [done|]. split; [discriminate | done].
Qed.

Lemma GetSourceRef_defaults_witness :
  (GetSourceRef sample).1
  = Some {| APIVersion := "source.toolkit.fluxcd.io/v1beta1";
            Kind := "GitRepository"; Name := "repo"; Namespace := "prod" |}.
Proof.
  destruct (GetSourceRef_defaults_and_is_idempotent sample) as (_ & H & _).
  exact (proj1 (H _ eq_refl)).
Defined.

(** ** What the accessors leave of the unit *)



Lemma setSourceRef_same (s : KonfigurationSpec) :
  setSourceRef (SourceRef s) s = s.
Proof. by destruct s. Qed.

Lemma setSpec_same (k : Konfiguration) : setSpec (Spec k) k = k.
Proof. by destruct k. Qed.






(** ** Variables.AppendToArgs *)

Lemma appendFlag_app flag es : ∀ args,
  appendFlag flag es args = args ++ flagPairs (map (pair flag) es).
Proof.
  unfold appendFlag, flagPairs.
  induction es as [|e es IH]; intros args; simpl.
  - by rewrite app_nil_r.
  - rewrite IH, <- app_assoc. done.
Qed.

Lemma flagPairs_app t1 t2 : flagPairs (t1 ++ t2) = flagPairs t1 ++ flagPairs t2.
Proof. apply bind_app. Qed.

(** The four loops append the pairs of [tagged], in that order. *)
Lemma AppendToArgs_in_tagged o1 o2 o3 o4 args :
  AppendToArgs_in o1 o2 o3 o4 args = args ++ flagPairs (tagged o1 o2 o3 o4).
Proof.
  unfold AppendToArgs_in, tagged.
  rewrite !appendFlag_app, !flagPairs_app, <- !app_assoc. done.
Qed.

Lemma length_flagPairs t : length (flagPairs t) = 2 * length t.
Proof.
  unfold flagPairs. induction t as [|p t IH]; [done|].
  rewrite bind_cons, length_app, IH. simpl. lia.
Qed.

Lemma lookup_flagPairs t : ∀ i p,
  t !! i = Some p ->
  flagPairs t !! (2 * i) = Some p.1 ∧
  flagPairs t !! (2 * i + 1) = Some (p.2.1 +:+ "=" +:+ p.2.2).
Proof.
  induction t as [|q t IH]; intros i p Hi; [done|].
  destruct i as [|i]; simpl in Hi.
  - inversion Hi; subst. done.
  - replace (2 * S i) with (S (S (2 * i))) by lia.
    replace (S (S (2 * i)) + 1) with (S (S (2 * i + 1))) by lia.
    by apply IH.
Qed.

Lemma length_tagged v o1 o2 o3 o4 :
  rangeOrder (ExtStr v) o1 -> rangeOrder (ExtCode v) o2 ->
  rangeOrder (TLAStr v) o3 -> rangeOrder (TLACode v) o4 ->
  length (tagged o1 o2 o3 o4) = entryCount v.
Proof.
  unfold rangeOrder, tagged, entryCount. intros H1 H2 H3 H4.
  rewrite !length_app, !length_map.
  rewrite (Permutation_length H1), (Permutation_length H2),
    (Permutation_length H3), (Permutation_length H4).
  rewrite !length_map_to_list. lia.
Qed.

Lemma rangeOrder_elem m es key val :
  rangeOrder m es -> (key, val) ∈ es ↔ m !! key = Some val.
Proof.
  unfold rangeOrder. intros H. rewrite H. apply elem_of_map_to_list.
Qed.

(** The pairs are the entries of the four mappings, each under the flag of
    its mapping. *)
Lemma elem_of_tagged v o1 o2 o3 o4 flag key val :
  rangeOrder (ExtStr v) o1 -> rangeOrder (ExtCode v) o2 ->
  rangeOrder (TLAStr v) o3 -> rangeOrder (TLACode v) o4 ->
  (flag, (key, val)) ∈ tagged o1 o2 o3 o4 ↔
  ∃ m, (flag, m) ∈ flagged v ∧ m !! key = Some val.
Proof.
  intros H1 H2 H3 H4. unfold tagged, flagged.
  rewrite !elem_of_app, !list_elem_of_fmap. split.
  - intros [(e & [= -> <-] & He)|[(e & [= -> <-] & He)|
            [(e & [= -> <-] & He)|(e & [= -> <-] & He)]]].
    + exists (ExtStr v). split; [set_solver | by eapply rangeOrder_elem].
    + exists (ExtCode v). split; [set_solver | by eapply rangeOrder_elem].
    + exists (TLAStr v). split; [set_solver | by eapply rangeOrder_elem].
    + exists (TLACode v). split; [set_solver | by eapply rangeOrder_elem].
  - intros (m & Hm & Hlk).
    repeat (apply elem_of_cons in Hm as [[= -> ->]|Hm]);
      [| | | |by apply elem_of_nil in Hm].
    + left. eexists. split; [done | by eapply rangeOrder_elem].
    + right. left. eexists. split; [done | by eapply rangeOrder_elem].
    + right. right. left. eexists. split; [done | by eapply rangeOrder_elem].
    + right. right. right. eexists. split; [done | by eapply rangeOrder_elem].
Qed.

(** The method has a result whatever the variables. *)
Lemma AppendToArgs_run_possible v args :
  AppendToArgs v args (AppendToArgs_run v args) v.
Proof.
  exists (map_to_list (ExtStr v)), (map_to_list (ExtCode v)),
    (map_to_list (TLAStr v)), (map_to_list (TLACode v)).
  unfold rangeOrder. repeat split; reflexivity.
Qed.

(** C9.  The result starts with the given arguments, unchanged; it is
    longer than them by two for every entry of the four mappings; every
    pair appended is the flag of a mapping followed by [key=value] for an
    entry of that mapping, and every entry has its pair; the mappings are
    as they were. *)
Theorem AppendToArgs_appends_flag_pairs
    (v v' : Variables) (args out : list string) :
  AppendToArgs v args out v' ->
  take (length args) out = args ∧
  length out = length args + 2 * entryCount v ∧
  (∀ i, i < entryCount v ->
     ∃ flag m key val,
       (flag, m) ∈ flagged v ∧ m !! key = Some val ∧
       out !! (length args + 2 * i) = Some flag ∧
       out !! (length args + 2 * i + 1) = Some (key +:+ "=" +:+ val)) ∧
  (∀ flag m key val,
     (flag, m) ∈ flagged v -> m !! key = Some val ->
     ∃ i, i < entryCount v ∧
       out !! (length args + 2 * i) = Some flag ∧
       out !! (length args + 2 * i + 1) = Some (key +:+ "=" +:+ val)) ∧
  v' = v.
Proof.
  intros (o1 & o2 & o3 & o4 & H1 & H2 & H3 & H4 & -> & ->).
  rewrite AppendToArgs_in_tagged.
  pose proof (length_tagged v _ _ _ _ H1 H2 H3 H4) as Hlen.
  assert (Hat : ∀ i p, tagged o1 o2 o3 o4 !! i = Some p ->
            (args ++ flagPairs (tagged o1 o2 o3 o4)) !! (length args + 2 * i)
            = Some p.1 ∧
            (args ++ flagPairs (tagged o1 o2 o3 o4))
              !! (length args + 2 * i + 1)
            = Some (p.2.1 +:+ "=" +:+ p.2.2)).
  { intros i p Hp. destruct (lookup_flagPairs _ _ _ Hp) as [Hf Hkv].
    rewrite <- Nat.add_assoc, !lookup_app_r by lia.
    replace (length args + 2 * i - length args) with (2 * i) by lia.
    replace (length args + (2 * i + 1) - length args) with (2 * i + 1) by lia.
    done. }
  split_and!.
  - apply take_app_length.
  - rewrite length_app, length_flagPairs, Hlen. done.
  - intros i Hi. rewrite <- Hlen in Hi.
    destruct (lookup_lt_is_Some_2 _ _ Hi) as [[flag [key val]] Hp].
    assert (Hin : (flag, (key, val)) ∈ tagged o1 o2 o3 o4)
      by (apply list_elem_of_lookup; eauto).
    apply (elem_of_tagged v) in Hin as (m & Hm & Hlk); [|done..].
    exists flag, m, key, val. destruct (Hat _ _ Hp). done.
  - intros flag m key val Hm Hlk.
    assert (Hin : (flag, (key, val)) ∈ tagged o1 o2 o3 o4)
      by (apply (elem_of_tagged v); eauto).
    apply list_elem_of_lookup in Hin as [i Hp].
    exists i. split.
    + rewrite <- Hlen. by eapply lookup_lt_Some.
    + by destruct (Hat _ _ Hp).
  - done.
Qed.

Lemma AppendToArgs_appends_flag_pairs_witness :
  take 1 (AppendToArgs_run sampleVariables ["show"]) = ["show"] ∧
  length (AppendToArgs_run sampleVariables ["show"]) = 5.
Proof.
  assert (H : AppendToArgs sampleVariables ["show"]
                (AppendToArgs_run sampleVariables ["show"]) sampleVariables).
  { exists (map_to_list (ExtStr sampleVariables)),
      (map_to_list (ExtCode sampleVariables)),
      (map_to_list (TLAStr sampleVariables)),
      (map_to_list (TLACode sampleVariables)).
    unfold rangeOrder. repeat split; reflexivity. }
  destruct (AppendToArgs_appends_flag_pairs _ _ _ _ H) as (Ht & Hl & _).
  split; [exact Ht | exact Hl].
Defined.

(** *** The order of the appended pairs *)

Lemma rangeOrder_twoVariables :
  rangeOrder (ExtStr twoVariables) [("a", "1"); ("b", "2")] ∧
  rangeOrder (ExtStr twoVariables) [("b", "2"); ("a", "1")].
Proof.
  assert (H : map_to_list (ExtStr twoVariables) ≡ₚ [("a", "1"); ("b", "2")]).
  { simpl. rewrite map_to_list_insert by done.
    by rewrite map_to_list_singleton. }
  unfold rangeOrder. rewrite H. split; [done | apply perm_swap].
Qed.

(** C10, as stated: two calls on equal variables and equal arguments
    return the same list, element for element.  They need not:
    [twoVariables] has two external strings, which [range] may hand out
    either way round. *)
Lemma AppendToArgs_order_not_fixed :
  ¬ (∀ (v v1 v2 : Variables) (args out1 out2 : list string),
        AppendToArgs v args out1 v1 -> AppendToArgs v args out2 v2 ->
        out1 = out2).
Proof.
  intros H.
  destruct rangeOrder_twoVariables as [Hab Hba].
  assert (Hempty : rangeOrder ∅ []) by (unfold rangeOrder; by rewrite map_to_list_empty).
  specialize (H twoVariables twoVariables twoVariables []
                ["--ext-str"; "a=1"; "--ext-str"; "b=2"]
                ["--ext-str"; "b=2"; "--ext-str"; "a=1"]).
  discriminate H.
  - exists [("a", "1"); ("b", "2")], [], [], []. by repeat split.
  - exists [("b", "2"); ("a", "1")], [], [], []. by repeat split.
Qed.

Lemma Permutation_short {A} (l1 l2 l : list A) :
  length l ≤ 1 -> l1 ≡ₚ l -> l2 ≡ₚ l -> l1 = l2.
Proof.
  intros Hlen H1 H2. destruct l as [|x [|y l]]; simpl in Hlen; [| |lia].
  - apply Permutation_nil_r in H1, H2. congruence.
  - apply Permutation_singleton_r in H1, H2. congruence.
Qed.

(** C10, amended.  Two calls on equal variables and equal arguments return
    the given arguments followed by the same flag-and-value pairs, block
    by block, up to the order of the pairs within each mapping's block;
    the two lists are equal element for element when no mapping has more
    than one entry. *)
Theorem AppendToArgs_same_up_to_order
    (v v1 v2 : Variables) (args out1 out2 : list string) :
  AppendToArgs v args out1 v1 -> AppendToArgs v args out2 v2 ->
  (∃ o1 o2 o3 o4 o1' o2' o3' o4',
      out1 = args ++ flagPairs (tagged o1 o2 o3 o4) ∧
      out2 = args ++ flagPairs (tagged o1' o2' o3' o4') ∧
      o1 ≡ₚ o1' ∧ o2 ≡ₚ o2' ∧ o3 ≡ₚ o3' ∧ o4 ≡ₚ o4') ∧
  out1 ≡ₚ out2 ∧
  length out1 = length out2 ∧
  (size (ExtStr v) ≤ 1 -> size (ExtCode v) ≤ 1 ->
   size (TLAStr v) ≤ 1 -> size (TLACode v) ≤ 1 -> out1 = out2).
Proof.
  intros (o1 & o2 & o3 & o4 & H1 & H2 & H3 & H4 & -> & _)
         (o1' & o2' & o3' & o4' & H1' & H2' & H3' & H4' & -> & _).
  unfold rangeOrder in *.
  assert (Hperm : tagged o1 o2 o3 o4 ≡ₚ tagged o1' o2' o3' o4').
  { unfold tagged. by rewrite H1, H2, H3, H4, H1', H2', H3', H4'. }
  rewrite !AppendToArgs_in_tagged. split_and!.
  - exists o1, o2, o3, o4, o1', o2', o3', o4'.
    split_and!; try done.
    + by rewrite H1, H1'.
    + by rewrite H2, H2'.
    + by rewrite H3, H3'.
    + by rewrite H4, H4'.
  - unfold flagPairs. by rewrite Hperm.
  - by rewrite !length_app, !length_flagPairs, (Permutation_length Hperm).
  - intros S1 S2 S3 S4. rewrite <- length_map_to_list in S1, S2, S3, S4.
    by rewrite (Permutation_short o1 o1' _ S1 H1 H1'),
      (Permutation_short o2 o2' _ S2 H2 H2'),
      (Permutation_short o3 o3' _ S3 H3 H3'),
      (Permutation_short o4 o4' _ S4 H4 H4').
Qed.

Lemma AppendToArgs_same_up_to_order_witness :
  AppendToArgs_run sampleVariables ["show"]
  = AppendToArgs_in [("env", "prod")] [] [] [("replicas", "3")] ["show"].
Proof.
  assert (H1 : AppendToArgs sampleVariables ["show"]
                 (AppendToArgs_run sampleVariables ["show"]) sampleVariables).
  { exists (map_to_list (ExtStr sampleVariables)),
      (map_to_list (ExtCode sampleVariables)),
      (map_to_list (TLAStr sampleVariables)),
      (map_to_list (TLACode sampleVariables)).
    unfold rangeOrder. repeat split; reflexivity. }
  assert (H2 : AppendToArgs sampleVariables ["show"]
                 (AppendToArgs_in [("env", "prod")] [] []
                    [("replicas", "3")] ["show"]) sampleVariables).
  { exists [("env", "prod")], [], [], [("replicas", "3")].
    unfold rangeOrder. repeat split; reflexivity. }
  destruct (AppendToArgs_same_up_to_order _ _ _ _ _ _ H1 H2) as (_ & _ & _ & H).
  apply H; vm_compute; lia.
Defined.

(** ** The dependency gate *)

Section Gate.
Context (store : Store).

Lemma closed_rtc X v w :
  closed store X -> v ∈ X -> rtc (edge store) v w -> w ∈ X.
Proof. intros Hc Hv Hr. induction Hr; eauto. Qed.

Lemma resolved_empty path : resolved store path ∅.
Proof. repeat split; intros v; set_solver. Qed.

Lemma resolved_cons path X n :
  resolved store path X -> n ∉ X -> resolved store (n :: path) X.
Proof.
  intros (Hc & Ha & Hd) Hn. repeat split; auto.
  intros v Hv [->|Hin]%elem_of_cons; [done | by eapply Hd].
Qed.

(** A unit whose entries are all resolved, and which is not itself among
    them, can join the resolved set. *)
Lemma resolved_finish path X n :
  resolved store (n :: path) X ->
  (∀ d, d ∈ deps store n -> d ∈ X) ->
  n ∉ path ->
  resolved store path ({[n]} ∪ X).
Proof.
  intros (Hc & Ha & Hd) Hdeps Hn.
  assert (HnX : n ∉ X) by (intros Hin; apply (Hd n Hin); left).
  repeat split.
  - intros v w [->%elem_of_singleton|Hv]%elem_of_union He.
    + apply elem_of_union_r. by apply Hdeps.
    + apply elem_of_union_r. by eapply Hc.
  - intros v [->%elem_of_singleton|Hv]%elem_of_union Hcyc.
    + apply HnX. inversion Hcyc as [? ? He|? d ? He Ht]; subst.
      * by apply Hdeps.
      * eapply closed_rtc; [exact Hc | by apply Hdeps | by apply tc_rtc].
    + by eapply Ha.
  - intros v [->%elem_of_singleton|Hv]%elem_of_union; [done|].
    intros Hin. apply (Hd v Hv). by right.
Qed.

Lemma walkAll_Done (f : gset Key -> Key -> Walk) path :
  (∀ X d X', resolved store path X -> f X d = Done X' ->
             resolved store path X' ∧ d ∈ X' ∧ X ⊆ X') ->
  ∀ ds X X', resolved store path X -> walkAll f ds X = Done X' ->
             resolved store path X' ∧ (∀ d, d ∈ ds -> d ∈ X') ∧ X ⊆ X'.
Proof.
  intros Hf ds. induction ds as [|d ds IH]; intros X X' HX Hw; simpl in Hw.
  - inversion Hw; subst. split; [done|]. split; [|done].
    intros d Hd. by apply elem_of_nil in Hd.
  - destruct (f X d) as [| |X1] eqn:Hfd; try discriminate.
    destruct (Hf _ _ _ HX Hfd) as (HX1 & Hd1 & Hsub1).
    destruct (IH _ _ HX1 Hw) as (HX' & Hds & Hsub).
    split; [done|]. split; [|by transitivity X1].
    intros d' [->|Hin]%elem_of_cons; [by apply Hsub | by apply Hds].
Qed.

(** A walk that finishes leaves a resolved set holding its start. *)
Lemma walk_Done fuel : ∀ path X n X',
  resolved store path X -> walk store fuel path X n = Done X' ->
  resolved store path X' ∧ n ∈ X' ∧ X ⊆ X'.
Proof.
  induction fuel as [|fuel IH]; intros path X n X' HX Hw; simpl in Hw.
  - discriminate.
  - destruct (decide (n ∈ path)) as [|Hnp]; [discriminate|].
    destruct (decide (n ∈ X)) as [HnX|HnX].
    + inversion Hw; subst. done.
    + destruct (walkAll _ _ _) as [| |X1] eqn:Hall; try discriminate.
      inversion Hw; subst. clear Hw.
      apply (walkAll_Done _ (n :: path)) in Hall as (HX1 & Hds & Hsub).
      * split; [by apply resolved_finish|]. split.
        -- by apply elem_of_union_l, elem_of_singleton.
        -- intros v Hv. by apply elem_of_union_r, Hsub.
      * intros Y d Y' HY HwY. by apply IH.
      * by apply resolved_cons.
Qed.

(** A revisit below [n] reaches a unit of the path or a unit on a cycle. *)
Lemma Revisits_reach path n :
  Revisits store path n ->
  ∃ c, rtc (edge store) n c ∧ (c ∈ path ∨ tc (edge store) c c).
Proof.
  induction 1 as [path n Hin|path n d Hnp Hd _ (c & Hr & Hc)].
  - exists n. split; [done | by left].
  - destruct Hc as [[->|Hin]%elem_of_cons|Hcyc].
    + exists n. split; [done|]. right.
      eapply tc_rtc_r; [apply tc_once, Hd | done].
    + exists c. split; [by eapply rtc_l | by left].
    + exists c. split; [by eapply rtc_l | by right].
Qed.

(** From a resolved unit neither a cycle nor the path can be reached. *)
Lemma resolved_no_revisit path X n :
  resolved store path X -> n ∈ X -> ¬ Revisits store path n.
Proof.
  intros (Hc & Ha & Hdis) Hn (c & Hr & Hcase)%Revisits_reach.
  assert (c ∈ X) by (by eapply closed_rtc).
  destruct Hcase; [by eapply Hdis | by eapply Ha].
Qed.

Lemma walkAll_Revisit (f : gset Key -> Key -> Walk) ds : ∀ X,
  walkAll f ds X = Revisit -> ∃ d Y, d ∈ ds ∧ f Y d = Revisit.
Proof.
  induction ds as [|d ds IH]; intros X Hw; simpl in Hw; [discriminate|].
  destruct (f X d) as [| |X1] eqn:Hfd; try discriminate.
  - exists d, X. split; [left | done].
  - destruct (IH _ Hw) as (d' & Y & Hin & Hf).
    exists d', Y. split; [by right | done].
Qed.

(** The walk reports a revisit only where there is one. *)
Lemma walk_Revisit fuel : ∀ path X n,
  walk store fuel path X n = Revisit -> Revisits store path n.
Proof.
  induction fuel as [|fuel IH]; intros path X n Hw; simpl in Hw.
  - discriminate.
  - destruct (decide (n ∈ path)) as [Hnp|Hnp]; [by constructor|].
    destruct (decide (n ∈ X)); [discriminate|].
    destruct (walkAll _ _ _) as [| |X1] eqn:Hall; try discriminate.
    apply walkAll_Revisit in Hall as (d & Y & Hd & Hfd).
    eapply revisit_below; eauto.
Qed.

Lemma walkAll_fuel (f : gset Key -> Key -> Walk) ds :
  (∀ X d, d ∈ ds -> f X d ≠ OutOfFuel) ->
  ∀ X, walkAll f ds X ≠ OutOfFuel.
Proof.
  induction ds as [|d ds IH]; intros Hf X; simpl; [done|].
  destruct (f X d) as [| |X1] eqn:Hfd; [|done|].
  - exfalso. eapply Hf; [left | done].
  - apply IH. intros Y d' Hd'. apply Hf. by right.
Qed.

Lemma path_bound (path : list Key) :
  NoDup path -> (∀ v, v ∈ path -> v ∈ dom store) ->
  length path ≤ size store.
Proof.
  intros Hnd Hdom.
  rewrite <- (size_dom (D:=gset Key) store).
  rewrite <- (size_list_to_set (C:=gset Key) path) by done.
  apply subseteq_size. intros v Hv%elem_of_list_to_set. by apply Hdom.
Qed.

(** The path holds units of the store, each once; so the budget never
    runs out. *)
Lemma walk_fuel fuel : ∀ path X n,
  NoDup path -> (∀ v, v ∈ path -> v ∈ dom store) ->
  size store < fuel + length path ->
  walk store fuel path X n ≠ OutOfFuel.
Proof.
  induction fuel as [|fuel IH]; intros path X n Hnd Hdom Hlt.
  - pose proof (path_bound path Hnd Hdom). simpl in Hlt. lia.
  - simpl. destruct (decide (n ∈ path)) as [|Hnp]; [done|].
    destruct (decide (n ∈ X)); [done|].
    destruct (walkAll _ _ _) as [| |X1] eqn:Hall; try done.
    exfalso. revert Hall. apply walkAll_fuel. intros Y d Hd. apply IH.
    + by constructor.
    + intros v [->|Hv]%elem_of_cons; [|by apply Hdom].
      unfold deps in Hd. apply elem_of_dom.
      destruct (store !! n) as [k|] eqn:Hk; [|by apply elem_of_nil in Hd].
      exists k. exact Hk.
    + simpl. lia.
Qed.

Lemma walkAll_mono (f g : gset Key -> Key -> Walk) ds :
  (∀ X d, f X d ≠ OutOfFuel -> g X d = f X d) ->
  ∀ X, walkAll f ds X ≠ OutOfFuel -> walkAll g ds X = walkAll f ds X.
Proof.
  intros Hfg. induction ds as [|d ds IH]; intros X Hw; simpl in *; [done|].
  destruct (f X d) as [| |X1] eqn:Hfd; [done| |].
  - by rewrite Hfg, Hfd by (by rewrite Hfd).
  - rewrite Hfg, Hfd by (by rewrite Hfd). by apply IH.
Qed.

(** A walk that ends within its budget ends the same way with more. *)
Lemma walk_mono fuel : ∀ fuel' path X n,
  fuel ≤ fuel' -> walk store fuel path X n ≠ OutOfFuel ->
  walk store fuel' path X n = walk store fuel path X n.
Proof.
  induction fuel as [|fuel IH]; intros fuel' path X n Hle Hw; [done|].
  destruct fuel' as [|fuel']; [lia|]. simpl in *.
  destruct (decide (n ∈ path)); [done|].
  destruct (decide (n ∈ X)); [done|].
  rewrite (walkAll_mono (walk store fuel (n :: path))).
  - done.
  - intros Y d Hne. apply IH; [lia | done].
  - by destruct (walkAll _ _ _).
Qed.

(** The walk from the requesting unit ends, and ends in a revisit exactly
    when there is one. *)
Lemma walk_root root :
  match walk store (S (size store)) [] ∅ root with
  | OutOfFuel => False
  | Revisit => Revisits store [] root
  | Done _ => ¬ Revisits store [] root
  end.
Proof.
  destruct (walk _ _ _ _ _) as [| |X] eqn:Hw.
  - revert Hw. apply walk_fuel; [constructor | |simpl; lia].
    intros v Hv. by apply elem_of_nil in Hv.
  - by eapply walk_Revisit.
  - apply walk_Done in Hw as (HX & Hin & _); [|apply resolved_empty].
    by eapply resolved_no_revisit.
Qed.

(** A cycle that can be reached is met by the walk. *)
Lemma reachable_cycle_Revisits root c :
  rtc (edge store) root c -> tc (edge store) c c -> Revisits store [] root.
Proof.
  intros Hr Hc. pose proof (walk_root root) as Hroot.
  destruct (walk _ _ _ _ _) as [| |X] eqn:Hw; [done..|].
  apply walk_Done in Hw as ((Hclosed & Hacyclic & _) & Hin & _);
    [|apply resolved_empty].
  exfalso. apply (Hacyclic c); [|done]. by eapply closed_rtc.
Qed.

End Gate.

(** C6.  On every store of units, cyclic or not, the resolution ends: with
    any budget above the number of units it returns the result of
    [isReady].  The result is [Cycle] exactly when the depth-first walk
    from the requesting unit comes to a unit already on its current path,
    which is exactly when a dependency cycle can be reached from the
    unit. *)
Theorem isReady_terminates_and_finds_cycles (store : Store) (root : Key) :
  (∀ fuel, size store < fuel ->
           isReady_fuel fuel store root = Some (isReady store root)) ∧
  (isReady store root = Cycle ↔ Revisits store [] root) ∧
  (isReady store root = Cycle ↔
   ∃ c, rtc (edge store) root c ∧ tc (edge store) c c).
Proof.
  pose proof (walk_root store root) as Hroot.
  assert (Hcycle : isReady store root = Cycle ↔ Revisits store [] root).
  { unfold isReady, isReady_fuel.
    destruct (walk _ _ _ _ _) as [| |X]; [done| |].
    - done.
    - split; [|done]. simpl. by destruct (firstNotReady _ _). }
  split_and!.
  - intros fuel Hfuel.
    assert (Hsame : walk store fuel [] ∅ root
                    = walk store (S (size store)) [] ∅ root).
    { apply walk_mono; [lia|]. by destruct (walk _ (S _) _ _ _). }
    unfold isReady, isReady_fuel. rewrite Hsame.
    destruct (walk _ (S _) _ _ _) as [| |X]; [done..|].
    by destruct (firstNotReady _ _).
  - done.
  - rewrite Hcycle. split.
    + intros (c & Hr & [Hin|Hc])%Revisits_reach; [|by eauto].
      by apply elem_of_nil in Hin.
    + intros (c & Hr & Hc). by eapply reachable_cycle_Revisits.
Qed.

Lemma isReady_terminates_and_finds_cycles_witness :
  isReady_fuel 3 cycleStore ("prod", "a") = Some Cycle.
Proof.
  destruct (isReady_terminates_and_finds_cycles cycleStore ("prod", "a"))
    as (Hfuel & _).
  rewrite (Hfuel 3); [reflexivity | vm_compute; lia].
Defined.

(** A depends on B and B on A: asking for A gives [Cycle]; on the diamond
    the walk finishes and A waits for nothing. *)
Example isReady_cycle : isReady cycleStore ("prod", "a") = Cycle.
Proof. reflexivity. Qed.

Example isReady_diamond : isReady diamondStore ("prod", "a") = Ready.
Proof. reflexivity. Qed.

Example isReady_missing :
  isReady diamondStore ("prod", "zzz") = Ready ∧
  isReady (storeOf [unitOf "a" ["b"] true]) ("prod", "a")
  = NotReady "dependency 'prod/b' not found".
Proof. split; reflexivity. Qed.

(** ** The reconcile scheduler *)

(** Take the transition of a machine whose phase is known. *)
Ltac take_step :=
  match goal with
  | |- context [step ?e {| phase := ?p; theUnit := ?u |}] =>
      let t := eval cbv beta iota zeta delta [step phase theUnit] in
                 (step e {| phase := p; theUnit := u |}) in
      change (step e {| phase := p; theUnit := u |}) with t
  end.

(** The transitions from [Idle] end in [Requeue], where [attempt] says. *)
Lemma reconcile_attempt env k : reconcile env k = attempt env k.
Proof.
  unfold reconcile, attempt, pruneReport, pruneOps, applyReport.
  cbn [run]. take_step.
  destruct (metav1.DeletionTimestamp (ObjectMeta k)) as [t|].
  { rewrite decide_True by eauto. take_step. unfold cleanupReport.
    destruct (noFailures _); by repeat take_step. }
  rewrite decide_False by (by intros [? ?]).
  destruct (IsSuspended k); [by repeat take_step|]. take_step.
  destruct (gate env k); [|by repeat take_step..]. take_step.
  destruct (shouldRender k (revision env)); [|by repeat take_step].
  destruct (fetchError env); [by repeat take_step|].
  destruct (render env) as [[class reason]|m]; [by repeat take_step|].
  do 2 take_step.
  destruct (execute env (ValidateEnabled k) _ _) as [a t]. cbn [fst snd].
  destruct (noFailures a); by repeat take_step.
Qed.

(** Once requeued or released, the machine stays where it is. *)
Lemma reconcile_stable env k n :
  run n env (reconcile env k) = reconcile env k.
Proof.
  rewrite reconcile_attempt.
  assert (Hstop : step env (attempt env k) = attempt env k).
  { unfold attempt. destruct (decide (is_Some _)).
    { by destruct (noFailures _). }
    destruct (IsSuspended k); [done|].
    destruct (gate env k); [|done..].
    by destruct (shouldRender k (revision env)). }
  induction n as [|n IH]; [done|]. simpl. by rewrite Hstop.
Qed.

Lemma noFailures_nil r :
  noFailures r = true ↔ failed r = [] ∧ aborted r = [].
Proof.
  unfold noFailures. destruct (failed r), (aborted r); split;
    intros; try done; by destruct_and?.
Qed.

(** A report without failures means that every operation was submitted and
    accepted, and passed validation where that was asked for. *)
Lemma execute_clean env validate ops : ∀ remaining,
  noFailures (execute env validate ops remaining).1 = true ->
  ∀ op, op ∈ ops ->
    submit env op = None ∧ (validate = true -> valid env op = true).
Proof.
  induction ops as [|op' ops IH]; intros remaining Hclean op Hin.
  - by apply elem_of_nil in Hin.
  - simpl in Hclean.
    destruct (remaining <=? 0)%Z; [discriminate|].
    destruct (validate && negb (valid env op')) eqn:Hv.
    + by destruct (execute env validate ops remaining).
    + destruct (remaining <? cost env op')%Z; [discriminate|].
      destruct (execute env validate ops (remaining - cost env op')%Z)
        as [r t] eqn:Hrest.
      destruct (submit env op') eqn:Hsubmit; [discriminate|].
      apply elem_of_cons in Hin as [->|Hin].
      * split; [done|]. intros ->. simpl in Hv.
        by destruct (valid env op').
      * apply (IH (remaining - cost env op')%Z); [|done].
        by rewrite Hrest.
Qed.

(** With no time left, everything is aborted. *)
Lemma execute_deadline env validate ops remaining :
  (remaining <= 0)%Z ->
  aborted (execute env validate ops remaining).1 = ops.
Proof.
  intros Hle. destruct ops as [|op ops]; [done|]. simpl.
  by rewrite (proj2 (Z.leb_le _ _) Hle).
Qed.

(** What [Committing] does to the Snapshot. *)
Lemma commit_Snapshot env k o :
  Snapshot_ (Status (commit env k o))
  = match o with
    | Executed m a p =>
        if noFailures a && noFailures p then Some (snapshotOf m)
        else Snapshot_ (Status k)
    | RenderFailed _ _ => Snapshot_ (Status k)
    end.
Proof.
  unfold commit, terminal. destruct o as [class reason|m a p]; [done|].
  destruct (noFailures a && noFailures p); [done|].
  by destruct (hasFatal a || hasFatal p).
Qed.

(** The Snapshot after an attempt: that of the rendered manifests when the
    attempt succeeds, and the one before otherwise. *)
Lemma attempt_Snapshot env k :
  (∃ m, succeeds env k m ∧
        Snapshot_ (Status (theUnit (attempt env k))) = Some (snapshotOf m)) ∨
  ((∀ m, ¬ succeeds env k m) ∧
   Snapshot_ (Status (theUnit (attempt env k))) = Snapshot_ (Status k)).
Proof.
  unfold attempt, succeeds.
  destruct (decide (is_Some _)) as [[t Ht]|Hnone].
  { right. split; [intros m (? & _); congruence|].
    by destruct (noFailures _). }
  assert (metav1.DeletionTimestamp (ObjectMeta k) = None) as Hlive
    by (destruct (metav1.DeletionTimestamp _); [destruct Hnone|]; eauto).
  destruct (IsSuspended k); [right; split; [intros m (_ & ? & _)|]; done|].
  destruct (gate env k) eqn:Hgate;
    [|right; split; [intros m (_ & _ & ? & _)|]; done..].
  destruct (shouldRender k (revision env));
    [|right; split; [intros m (_ & _ & _ & ? & _)|]; done].
  cbn [theUnit]. rewrite commit_Snapshot.
  destruct (fetchError env);
    [right; split; [intros m (_ & _ & _ & _ & ? & _)|]; done|].
  destruct (render env) as [[class reason]|m];
    [right; split; [intros m (_ & _ & _ & _ & _ & ? & _)|]; done|].
  destruct (noFailures (applyReport env k m).1) eqn:Ha; cbn [andb].
  - destruct (noFailures (pruneReport env k m)) eqn:Hp.
    + left. by exists m.
    + right. split; [|done].
      intros m' (_ & _ & _ & _ & _ & [= <-] & _ & Hp'). congruence.
  - right. split; [|done].
    intros m' (_ & _ & _ & _ & _ & [= <-] & Ha' & _). congruence.
Qed.

(** C3.  An attempt ends, requeued or, on deletion, released, and leaves
    as Snapshot either the one it found or, whole, the one of the manifests
    it rendered.  It leaves the new
    one exactly when it succeeds; so a Snapshot that differs from the one
    before means that applying and pruning both reported no failed and no
    aborted operation.  Whatever fails - a dependency not ready, the
    source or the renderer, an operation refused by the cluster or by
    validation, a delete refused while pruning, operations aborted at the
    deadline - the Snapshot after the attempt is the Snapshot before
    it. *)
Theorem Snapshot_replaced_only_on_full_success (env : Env) (k : Konfiguration) :
  let k' := theUnit (reconcile env k) in
  let before := Snapshot_ (Status k) in
  let after := Snapshot_ (Status k') in
  ((∃ delay, phase (reconcile env k) = Requeue delay) ∨
   phase (reconcile env k) = Released) ∧
  (after = before ∨ ∃ m, render env = inr m ∧ after = Some (snapshotOf m)) ∧
  (∀ m, succeeds env k m -> after = Some (snapshotOf m)) ∧
  ((∀ m, ¬ succeeds env k m) -> after = before) ∧
  (after ≠ before ->
     ∃ m, render env = inr m ∧
          failed (applyReport env k m).1 = [] ∧
          aborted (applyReport env k m).1 = [] ∧
          failed (pruneReport env k m) = [] ∧
          aborted (pruneReport env k m) = [] ∧
          after = Some (snapshotOf m)) ∧
  (gate env k ≠ Ready -> after = before) ∧
  (is_Some (fetchError env) -> after = before) ∧
  (∀ e, render env = inl e -> after = before) ∧
  (∀ m op, render env = inr m ->
           op ∈ diff env (GetDiffStrategy k) (objects m) ->
           is_Some (submit env op) -> after = before) ∧
  (∀ m op, render env = inr m ->
           op ∈ diff env (GetDiffStrategy k) (objects m) ->
           ValidateEnabled k = true -> valid env op = false ->
           after = before) ∧
  (∀ m op, render env = inr m -> op ∈ pruneOps k m ->
           is_Some (submit env op) -> after = before) ∧
  (∀ m, render env = inr m ->
        aborted (applyReport env k m).1 ≠ [] ∨
        aborted (pruneReport env k m) ≠ [] ->
        after = before).
Proof.
  cbv zeta. rewrite reconcile_attempt.
  pose proof (attempt_Snapshot env k) as Hsnap.
  assert (Hfail : (∀ m, ¬ succeeds env k m) ->
            Snapshot_ (Status (theUnit (attempt env k)))
            = Snapshot_ (Status k)).
  { intros Hno. destruct Hsnap as [(m & Hm & _)|[_ ?]]; [|done].
    by destruct (Hno m). }
  split_and!.
  - unfold attempt. destruct (decide (is_Some _)).
    { destruct (noFailures _); [by right | left; by eexists]. }
    left. destruct (IsSuspended k); [by eexists|].
    destruct (gate env k); [|by eexists..].
    destruct (shouldRender k (revision env)); by eexists.
  - destruct Hsnap as [(m & Hm & ?)|[_ ?]]; [right|by left].
    exists m. split; [apply Hm | done].
  - intros m Hm. destruct Hsnap as [(m' & Hm' & ?)|[Hno _]].
    + destruct Hm as (_ & _ & _ & _ & _ & Hr & _).
      destruct Hm' as (_ & _ & _ & _ & _ & Hr' & _). congruence.
    + by destruct (Hno m).
  - done.
  - intros Hne. destruct Hsnap as [(m & Hm & ?)|[_ ?]]; [|done].
    destruct Hm as (_ & _ & _ & _ & _ & Hr & Ha & Hp).
    apply noFailures_nil in Ha as [? ?], Hp as [? ?]. by exists m.
  - intros Hg. apply Hfail. intros m (_ & _ & ? & _). done.
  - intros [reason Hf]. apply Hfail. intros m (_ & _ & _ & _ & ? & _).
    congruence.
  - intros e He. apply Hfail.
    intros m (_ & _ & _ & _ & _ & ? & _). congruence.
  - intros m op Hr Hin [e He]. apply Hfail.
    intros m' (_ & _ & _ & _ & _ & Hr' & Ha & _).
    assert (m' = m) as -> by congruence.
    destruct (execute_clean _ _ _ _ Ha op Hin) as [Hs _]. congruence.
  - intros m op Hr Hin Hv Hinvalid. apply Hfail.
    intros m' (_ & _ & _ & _ & _ & Hr' & Ha & _).
    assert (m' = m) as -> by congruence.
    destruct (execute_clean _ _ _ _ Ha op Hin) as [_ Hvalid].
    specialize (Hvalid Hv). congruence.
  - intros m op Hr Hin [e He]. apply Hfail.
    intros m' (_ & _ & _ & _ & _ & Hr' & _ & Hp).
    assert (m' = m) as -> by congruence.
    destruct (execute_clean _ _ _ _ Hp op Hin) as [Hs _]. congruence.
  - intros m Hr Hab. apply Hfail.
    intros m' (_ & _ & _ & _ & _ & Hr' & Ha & Hp).
    assert (m' = m) as -> by congruence.
    apply noFailures_nil in Ha as [_ ?], Hp as [_ ?]. by destruct Hab.
Qed.

Lemma Snapshot_replaced_only_on_full_success_witness :
  Snapshot_ (Status (theUnit (reconcile conflictEnv appUnit)))
  = Snapshot_ (Status appUnit).
Proof.
  destruct (Snapshot_replaced_only_on_full_success conflictEnv appUnit)
    as (_ & _ & _ & _ & _ & _ & _ & _ & H & _).
  apply (H {| objects := [D1; S1]; checksum := "c0ffee" |} (Create S1)).
  - reflexivity.
  - simpl. right. left.
  - eexists. reflexivity.
Defined.

(** After any number of attempts the Snapshot is the first one or that of
    the manifests rendered in one of the attempts. *)
Lemma attempts_Snapshot envs : ∀ k,
  Snapshot_ (Status (attempts envs k)) = Snapshot_ (Status k) ∨
  ∃ env m, env ∈ envs ∧ render env = inr m ∧
           Snapshot_ (Status (attempts envs k)) = Some (snapshotOf m).
Proof.
  unfold attempts.
  induction envs as [|env envs IH]; intros k; [by left|]. simpl.
  destruct (IH (theUnit (reconcile env k))) as [Hsame|(env' & m & ? & ? & ?)].
  - rewrite Hsame, reconcile_attempt.
    destruct (attempt_Snapshot env k) as [(m & Hm & ->)|[_ ->]]; [|by left].
    right. exists env, m. split; [left|]. split; [apply Hm | done].
  - right. exists env', m. split; [by right | done].
Qed.

(** The scenario of the specification: the first attempt creates the
    Deployment and the Service and records both; the second, with the
    Service gone from the source, deletes it and records the Deployment
    alone; had the delete failed, the record would still hold both. *)
Example two_attempts :
  Snapshot_ (Status (attempts [sampleEnv] appUnit))
  = Some {| Checksum := "c0ffee";
            Entries := {[ "prod" := {[ "Deployment" := {[ "D1" ]};
                                       "Service" := {[ "S1" ]} ]} ]} |} ∧
  Snapshot_ (Status (attempts [sampleEnv; nextEnv] appUnit))
  = Some {| Checksum := "decade";
            Entries := {[ "prod" := {[ "Deployment" := {[ "D1" ]} ]} ]} |} ∧
  Snapshot_ (Status (attempts [sampleEnv; nextEnvPruneFails] appUnit))
  = Snapshot_ (Status (attempts [sampleEnv] appUnit)) ∧
  phase (reconcile sampleEnv appUnit) = Requeue 300000000000%Z ∧
  phase (reconcile conflictEnv appUnit) = Requeue 30000000000%Z.
Proof. repeat split; vm_compute; reflexivity. Qed.


(** * Further properties of the helpers *)

(** ** KubeConfig.Fetch *)

Lemma length_string_of_list_byte (bytes : list byte) :
  String.length (String.string_of_list_byte bytes) = length bytes.
Proof. induction bytes as [|b bytes IH]; simpl; [done | by f_equal]. Qed.

(** X1.  The string [Fetch] returns holds the bytes of the secret's [value]
    key, all of them and in order, whatever they are: turned back into
    bytes it is the stored content, and it is as long. *)
Theorem Fetch_returns_the_stored_bytes (k : KubeConfig) (c : client.Client)
    (namespace : string) secret data (bytes : list byte) :
  c {| types.Namespace := namespace;
       types.Name := corev1.Name (SecretRef k) |} = inl secret ->
  corev1.Data secret = Some data ->
  data !! "value" = Some bytes ->
  String.list_byte_of_string (Fetch k c namespace).1 = bytes ∧
  String.length (Fetch k c namespace).1 = length bytes ∧
  (Fetch k c namespace).2 = None.
Proof.
  intros Hget Hdata Hval. unfold Fetch. rewrite Hget, Hdata, Hval. simpl.
  split; [apply String.list_byte_of_string_of_list_byte|].
  split; [apply length_string_of_list_byte | done].
Qed.

Lemma Fetch_returns_the_stored_bytes_witness :
  String.list_byte_of_string
    (Fetch (sampleKubeConfig "remote") sampleClient "prod").1
  = [Byte.x6b; Byte.x38; Byte.x73].
Proof.
  refine (proj1 (Fetch_returns_the_stored_bytes
                   (sampleKubeConfig "remote") sampleClient "prod"
                   _ _ _ eq_refl eq_refl eq_refl)).
Defined.

(** X2.  [Fetch] returns the empty string without an error exactly when
    the secret has a [value] key that holds no bytes: an empty result does
    not by itself mean that the fetch failed. *)
Theorem Fetch_empty_without_error (k : KubeConfig) (c : client.Client)
    (namespace : string) :
  Fetch k c namespace = ("", None) ↔
  ∃ secret data,
    c {| types.Namespace := namespace;
         types.Name := corev1.Name (SecretRef k) |} = inl secret ∧
    corev1.Data secret = Some data ∧ data !! "value" = Some [].
Proof.
  unfold Fetch.
  destruct (c _) as [secret|err] eqn:Hget; [|split; [done|]].
  - destruct (corev1.Data secret) as [data|] eqn:Hdata.
    + destruct (data !! "value") as [bytes|] eqn:Hval.
      * split.
        -- intros [= Hempty]. exists secret, data.
           split; [done|]. split; [done|].
           apply (f_equal String.list_byte_of_string) in Hempty.
           rewrite String.list_byte_of_string_of_list_byte in Hempty.
           simpl in Hempty. by subst bytes.
        -- intros (s' & d' & [= <-] & Hd' & Hv'). by simplify_eq.
      * split; [done|]. intros (s' & d' & [= <-] & Hd' & Hv').
        by simplify_eq.
    + split; [done|]. intros (s' & d' & [= <-] & Hd' & _). by simplify_eq.
  - by intros (s' & d' & ? & _).
Qed.

(** X3.  [Fetch] looks at one secret, the one of the given namespace and
    of the referenced name, and in it at the [value] key only: clients
    that answer alike for that secret, up to the other keys of its data,
    give the same result, whatever else they hold. *)
Theorem Fetch_reads_one_key (k : KubeConfig) (c c' : client.Client)
    (namespace : string) :
  sameForFetch
    (c {| types.Namespace := namespace;
          types.Name := corev1.Name (SecretRef k) |})
    (c' {| types.Namespace := namespace;
           types.Name := corev1.Name (SecretRef k) |}) ->
  Fetch k c namespace = Fetch k c' namespace.
Proof.
  unfold Fetch, sameForFetch, secretError.
  destruct (c _) as [s|e], (c' _) as [s'|e']; try done.
  - intros (-> & -> & Hdata).
    destruct (corev1.Data s) as [d|], (corev1.Data s') as [d'|]; try done.
    by rewrite Hdata.
  - by intros ->.
Qed.

Lemma Fetch_reads_one_key_witness :
  Fetch (sampleKubeConfig "remote") sampleClient "prod"
  = Fetch (sampleKubeConfig "remote") otherClient "prod".
Proof.
  apply (Fetch_reads_one_key (sampleKubeConfig "remote")
           sampleClient otherClient "prod").
  simpl. repeat split; reflexivity.
Defined.

Lemma append_inj_l (p a b : string) : p +:+ a = p +:+ b -> a = b.
Proof. induction p as [|ch p IH]; simpl; [done|]. intros [= ?]. auto. Qed.

Lemma secretError_differ secret :
  secretError secret "data" ≠ secretError secret "'value' key".
Proof.
  unfold secretError. intros [= H]. do 5 apply append_inj_l in H.
  discriminate H.
Qed.

(** X4.  When the secret is there, the error of [Fetch] tells what was
    wrong with it: it is the [contains no data] error exactly when the
    secret's data is nil, and the [contains no 'value' key] error exactly
    when the data is there without that key. *)
Theorem Fetch_error_tells_the_cause (k : KubeConfig) (c : client.Client)
    (namespace : string) secret :
  c {| types.Namespace := namespace;
       types.Name := corev1.Name (SecretRef k) |} = inl secret ->
  ((Fetch k c namespace).2 = Some (secretError secret "data") ↔
   corev1.Data secret = None) ∧
  ((Fetch k c namespace).2 = Some (secretError secret "'value' key") ↔
   ∃ data, corev1.Data secret = Some data ∧ data !! "value" = None).
Proof.
  intros Hget. unfold Fetch. rewrite Hget.
  pose proof (secretError_differ secret) as Hne.
  destruct (corev1.Data secret) as [data|].
  - destruct (data !! "value") as [bytes|] eqn:Hval; simpl.
    + split; split; try done. intros (d & [= <-] & ?). congruence.
    + split; split; try done; [congruence | by exists data].
  - simpl. split; split; try done; [congruence | by intros (d & ? & _)].
Qed.

Lemma Fetch_error_tells_the_cause_witness :
  (Fetch (sampleKubeConfig "bare") bareClient "prod").2
  = Some (Errorf "Secret 'prod/bare' contains no data").
Proof.
  apply (proj1 (Fetch_error_tells_the_cause (sampleKubeConfig "bare")
                  bareClient "prod" bareSecret eq_refl)).
  reflexivity.
Defined.

(** ** Variables.AppendToArgs *)

(** X5.  What [AppendToArgs] appends does not depend on the arguments it
    is given: a call on a list that starts with [pre] returns [pre]
    followed by what a call on the rest can return. *)
Theorem AppendToArgs_after_a_prefix
    (v v' : Variables) (pre args out : list string) :
  AppendToArgs v (pre ++ args) out v' ↔
  ∃ rest, out = pre ++ rest ∧ AppendToArgs v args rest v'.
Proof.
  split.
  - intros (o1 & o2 & o3 & o4 & H1 & H2 & H3 & H4 & -> & ->).
    exists (AppendToArgs_in o1 o2 o3 o4 args). split.
    + by rewrite !AppendToArgs_in_tagged, app_assoc.
    + by exists o1, o2, o3, o4.
  - intros (rest & -> & o1 & o2 & o3 & o4 & H1 & H2 & H3 & H4 & -> & ->).
    exists o1, o2, o3, o4. split_and!; try done.
    by rewrite !AppendToArgs_in_tagged, app_assoc.
Qed.

Lemma tagged_nil v o1 o2 o3 o4 :
  rangeOrder (ExtStr v) o1 -> rangeOrder (ExtCode v) o2 ->
  rangeOrder (TLAStr v) o3 -> rangeOrder (TLACode v) o4 ->
  tagged o1 o2 o3 o4 = [] ↔
  ExtStr v = ∅ ∧ ExtCode v = ∅ ∧ TLAStr v = ∅ ∧ TLACode v = ∅.
Proof.
  intros H1 H2 H3 H4.
  pose proof (length_tagged v _ _ _ _ H1 H2 H3 H4) as Hlen.
  unfold entryCount in Hlen.
  rewrite <- !map_size_empty_iff. split.
  - intros Ht. rewrite Ht in Hlen. simpl in Hlen. lia.
  - intros (E1 & E2 & E3 & E4). apply length_zero_iff_nil. lia.
Qed.

(** X6.  [AppendToArgs] returns the arguments it was given, and nothing
    more, exactly when all four mappings are empty. *)
Theorem AppendToArgs_nothing_to_append
    (v v' : Variables) (args out : list string) :
  AppendToArgs v args out v' ->
  (out = args ↔
   ExtStr v = ∅ ∧ ExtCode v = ∅ ∧ TLAStr v = ∅ ∧ TLACode v = ∅).
Proof.
  intros (o1 & o2 & o3 & o4 & H1 & H2 & H3 & H4 & -> & _).
  rewrite AppendToArgs_in_tagged, <- (tagged_nil v o1 o2 o3 o4) by done.
  split.
  - intros Heq. apply (f_equal length) in Heq.
    rewrite length_app, length_flagPairs in Heq.
    apply length_zero_iff_nil. lia.
  - intros ->. apply app_nil_r.
Qed.

Lemma AppendToArgs_nothing_to_append_witness :
  AppendToArgs_run noVariables ["show"] = ["show"].
Proof.
  assert (H : AppendToArgs noVariables ["show"]
                (AppendToArgs_run noVariables ["show"]) noVariables).
  { exists [], [], [], []. unfold rangeOrder. repeat split; reflexivity. }
  apply (AppendToArgs_nothing_to_append _ _ _ _ H). repeat split; reflexivity.
Defined.

(** The pair at position [i] is made from an entry of the mapping whose
    loop is running then. *)
Lemma lookup_tagged v o1 o2 o3 o4 i p :
  rangeOrder (ExtStr v) o1 -> rangeOrder (ExtCode v) o2 ->
  rangeOrder (TLAStr v) o3 -> rangeOrder (TLACode v) o4 ->
  tagged o1 o2 o3 o4 !! i = Some p ->
  p.1 = (blockOf v i).1 ∧ (blockOf v i).2 !! p.2.1 = Some p.2.2.
Proof.
  intros H1 H2 H3 H4 Hp.
  assert (Hin : ∀ m o f (j : nat),
            rangeOrder m o -> (pair f <$> o) !! j = Some p ->
            p.1 = f ∧ m !! p.2.1 = Some p.2.2).
  { intros m o f j Ho Hj. rewrite list_lookup_fmap in Hj.
    destruct (o !! j) as [[key val]|] eqn:Hoj; simplify_eq/=.
    split; [done|]. apply (rangeOrder_elem m o); [done|].
    by eapply list_elem_of_lookup_2. }
  pose proof (Permutation_length H1) as L1.
  pose proof (Permutation_length H2) as L2.
  pose proof (Permutation_length H3) as L3.
  rewrite length_map_to_list in L1, L2, L3.
  unfold tagged in Hp. unfold blockOf.
  destruct (decide (i < size (ExtStr v))).
  { rewrite lookup_app_l in Hp by (rewrite length_map; lia). by eapply Hin. }
  rewrite lookup_app_r, length_map in Hp by (rewrite length_map; lia).
  destruct (decide (i < size (ExtStr v) + size (ExtCode v))).
  { rewrite lookup_app_l in Hp by (rewrite length_map; lia). by eapply Hin. }
  rewrite lookup_app_r, length_map in Hp by (rewrite length_map; lia).
  destruct (decide (i < size (ExtStr v) + size (ExtCode v) + size (TLAStr v))).
  { rewrite lookup_app_l in Hp by (rewrite length_map; lia). by eapply Hin. }
  rewrite lookup_app_r, length_map in Hp by (rewrite length_map; lia).
  by eapply Hin.
Qed.

(** Where the pair at position [i] sits in the result. *)
Lemma lookup_appended args t i p :
  t !! i = Some p ->
  (args ++ flagPairs t) !! (length args + 2 * i) = Some p.1 ∧
  (args ++ flagPairs t) !! (length args + 2 * i + 1)
  = Some (p.2.1 +:+ "=" +:+ p.2.2).
Proof.
  intros Hp. destruct (lookup_flagPairs _ _ _ Hp) as [Hf Hkv].
  rewrite <- Nat.add_assoc, !lookup_app_r by lia.
  replace (length args + 2 * i - length args) with (2 * i) by lia.
  replace (length args + (2 * i + 1) - length args) with (2 * i + 1) by lia.
  done.
Qed.

(** X7.  The pairs come in the order of the four loops: first a pair under
    [--ext-str] for every external string, then the pairs under
    [--ext-code], then those under [--tla-str], then those under
    [--tla-code]; within a block the order is open. *)
Theorem AppendToArgs_blocks_in_order
    (v v' : Variables) (args out : list string) (i : nat) :
  AppendToArgs v args out v' ->
  i < entryCount v ->
  out !! (length args + 2 * i) = Some (blockOf v i).1 ∧
  ∃ key val,
    (blockOf v i).2 !! key = Some val ∧
    out !! (length args + 2 * i + 1) = Some (key +:+ "=" +:+ val).
Proof.
  intros (o1 & o2 & o3 & o4 & H1 & H2 & H3 & H4 & -> & _) Hi.
  rewrite AppendToArgs_in_tagged.
  rewrite <- (length_tagged v o1 o2 o3 o4) in Hi by done.
  destruct (lookup_lt_is_Some_2 _ _ Hi) as [p Hp].
  destruct (lookup_tagged v _ _ _ _ _ _ H1 H2 H3 H4 Hp) as [Hflag Hentry].
  destruct (lookup_appended args _ _ _ Hp) as [Hf Hkv].
  split; [by rewrite Hf, Hflag|]. by exists p.2.1, p.2.2.
Qed.

Lemma AppendToArgs_blocks_in_order_witness :
  AppendToArgs_run sampleVariables ["show"] !! 3 = Some "--tla-code".
Proof.
  assert (H : AppendToArgs sampleVariables ["show"]
                (AppendToArgs_run sampleVariables ["show"]) sampleVariables).
  { exists (map_to_list (ExtStr sampleVariables)),
      (map_to_list (ExtCode sampleVariables)),
      (map_to_list (TLAStr sampleVariables)),
      (map_to_list (TLACode sampleVariables)).
    unfold rangeOrder. repeat split; reflexivity. }
  refine (proj1 (AppendToArgs_blocks_in_order _ _ _ _ 1 H _)).
  vm_compute. lia.
Defined.

(** A key without the separator can be read back from [key=value]. *)
Lemma key_value_inj k1 v1 k2 v2 :
  hasEquals k1 = false -> hasEquals k2 = false ->
  k1 +:+ "=" +:+ v1 = k2 +:+ "=" +:+ v2 -> k1 = k2 ∧ v1 = v2.
Proof.
  revert k2. induction k1 as [|c1 k1 IH]; intros [|c2 k2] E1 E2 Heq;
    cbn in *.
  - by simplify_eq.
  - injection Heq as <- _. by destruct (hasEquals k2).
  - injection Heq as -> _. by destruct (hasEquals k1).
  - injection Heq as -> Heq.
    apply orb_false_elim in E1 as [_ E1], E2 as [_ E2].
    destruct (IH _ E1 E2 Heq) as [-> ->]. done.
Qed.

Lemma NoDup_tagged v o1 o2 o3 o4 :
  rangeOrder (ExtStr v) o1 -> rangeOrder (ExtCode v) o2 ->
  rangeOrder (TLAStr v) o3 -> rangeOrder (TLACode v) o4 ->
  NoDup (tagged o1 o2 o3 o4).
Proof.
  unfold rangeOrder, tagged. intros H1 H2 H3 H4.
  assert (Hnd : ∀ (m : gmap string string) o (f : string),
            o ≡ₚ map_to_list m -> NoDup (pair f <$> o)).
  { intros m o f Ho. apply NoDup_fmap_2; [by intros ?? [= ?]|].
    rewrite Ho. apply NoDup_map_to_list. }
  assert (Hflag : ∀ (f : string) (o : list (string * string)) p,
            p ∈ pair f <$> o -> p.1 = f).
  { intros f o p (e & -> & _)%list_elem_of_fmap. done. }
  repeat (apply NoDup_app; split_and!; [by eapply Hnd| |]);
    [..|by eapply Hnd];
    intros p Hp%Hflag Hq; rewrite ?elem_of_app in Hq;
    destruct_or?; apply Hflag in Hq; congruence.
Qed.

(** X8.  When no key holds an [=], no two of the appended pairs are the
    same pair: different entries give different arguments. *)
Theorem AppendToArgs_pairs_distinct
    (v v' : Variables) (args out : list string) (i j : nat) :
  AppendToArgs v args out v' ->
  plainKeys (ExtStr v) -> plainKeys (ExtCode v) ->
  plainKeys (TLAStr v) -> plainKeys (TLACode v) ->
  i < entryCount v -> j < entryCount v -> i ≠ j ->
  (out !! (length args + 2 * i), out !! (length args + 2 * i + 1))
  ≠ (out !! (length args + 2 * j), out !! (length args + 2 * j + 1)).
Proof.
  intros (o1 & o2 & o3 & o4 & H1 & H2 & H3 & H4 & -> & _) P1 P2 P3 P4 Hi Hj.
  intros Hne Hsame. apply Hne. revert Hsame.
  rewrite AppendToArgs_in_tagged.
  rewrite <- (length_tagged v o1 o2 o3 o4) in Hi, Hj by done.
  destruct (lookup_lt_is_Some_2 _ _ Hi) as [[f [k1 v1]] Hp].
  destruct (lookup_lt_is_Some_2 _ _ Hj) as [[g [k2 v2]] Hq].
  destruct (lookup_appended args _ _ _ Hp) as [-> ->].
  destruct (lookup_appended args _ _ _ Hq) as [-> ->].
  simpl. intros [= -> Hkv].
  assert (Hplain : ∀ n f' key val,
            tagged o1 o2 o3 o4 !! n = Some (f', (key, val)) ->
            hasEquals key = false).
  { intros n f' key val Hn.
    destruct (lookup_tagged v _ _ _ _ _ _ H1 H2 H3 H4 Hn) as [_ Hentry].
    simpl in Hentry. unfold blockOf in Hentry.
    repeat case_decide; simpl in Hentry; eauto. }
  destruct (key_value_inj k1 v1 k2 v2) as [-> ->]; eauto.
  eapply NoDup_lookup; [by apply (NoDup_tagged v)|done..].
Qed.

Lemma AppendToArgs_pairs_distinct_witness :
  (AppendToArgs_run sampleVariables ["show"] !! 1,
   AppendToArgs_run sampleVariables ["show"] !! 2)
  ≠ (AppendToArgs_run sampleVariables ["show"] !! 3,
     AppendToArgs_run sampleVariables ["show"] !! 4).
Proof.
  assert (H : AppendToArgs sampleVariables ["show"]
                (AppendToArgs_run sampleVariables ["show"]) sampleVariables).
  { exists (map_to_list (ExtStr sampleVariables)),
      (map_to_list (ExtCode sampleVariables)),
      (map_to_list (TLAStr sampleVariables)),
      (map_to_list (TLACode sampleVariables)).
    unfold rangeOrder. repeat split; reflexivity. }
  apply (AppendToArgs_pairs_distinct _ _ _ _ 0 1 H).
  - intros key val Hk. simpl in Hk.
    apply lookup_singleton_Some in Hk as [<- _]. reflexivity.
  - intros key val Hk. simpl in Hk. by rewrite lookup_empty in Hk.
  - intros key val Hk. simpl in Hk. by rewrite lookup_empty in Hk.
  - intros key val Hk. simpl in Hk.
    apply lookup_singleton_Some in Hk as [<- _]. reflexivity.
  - vm_compute. lia.
  - vm_compute. lia.
  - discriminate.
Defined.

(** With an [=] in a key two entries can give the same argument. *)
Example key_value_ambiguous :
  ExtStr ambiguousVariables !! "a" = Some "=b" ∧
  ExtStr ambiguousVariables !! "a=" = Some "b" ∧
  "a" +:+ "=" +:+ "=b" = "a=" +:+ "=" +:+ "b".
Proof. repeat split. Qed.

(** ** The accessors, one after another *)

Lemma GetSourceRef_again k : GetSourceRef (GetSourceRef k).2 = GetSourceRef k.
Proof.
  unfold GetSourceRef.
  destruct (SourceRef (Spec k)) as [r|] eqn:Hr; [|by simpl; rewrite Hr].
  destruct (String.eqb_spec (Namespace r) "") as [Hns|Hns]; simpl.
  - unfold GetNamespace. simpl.
    by destruct (String.eqb_spec (metav1.Namespace (ObjectMeta k)) "")
      as [->|_].
  - rewrite Hr. by destruct (String.eqb_spec (Namespace r) "").
Qed.

Lemma call_state a k :
  (call a k).2 = if decide (a = AGetSourceRef) then (GetSourceRef k).2 else k.
Proof. destruct a; try done. unfold call. by destruct (GetSourceRef k). Qed.

(** An accessor returns after [GetSourceRef] what it returned before. *)
Lemma call_after_GetSourceRef a k :
  (call a (GetSourceRef k).2).1 = (call a k).1.
Proof.
  destruct a; try (unfold GetSourceRef; destruct (SourceRef (Spec k)) as [r|];
    [destruct (String.eqb (Namespace r) "")|]; reflexivity).
  unfold call. rewrite GetSourceRef_again. by destruct (GetSourceRef k).
Qed.

(** X9.  However many accessors are called and in whatever order, the unit
    ends as it was if [GetSourceRef] is not among them and as one call of
    [GetSourceRef] leaves it if it is; and every accessor returns after
    them what it returns on the unit as it was. *)
Theorem accessors_settle (accs : list Accessor) (k : Konfiguration) :
  calls accs k
  = (if decide (AGetSourceRef ∈ accs) then (GetSourceRef k).2 else k) ∧
  ∀ a, (call a (calls accs k)).1 = (call a k).1.
Proof.
  assert (Hstate : ∀ accs k,
            calls accs k
            = if decide (AGetSourceRef ∈ accs) then (GetSourceRef k).2 else k).
  { clear. intros accs. unfold calls.
    induction accs as [|a accs IH]; intros k; simpl; [done|].
    rewrite IH, call_state.
    destruct (decide (a = AGetSourceRef)) as [->|Hne].
    - destruct (decide (AGetSourceRef ∈ AGetSourceRef :: accs)) as [_|Hn];
        [|destruct Hn; left].
      rewrite GetSourceRef_again.
      by destruct (decide (AGetSourceRef ∈ accs)).
    - destruct (decide (AGetSourceRef ∈ accs)) as [Hin|Hnin],
        (decide (AGetSourceRef ∈ a :: accs)) as [Hin'|Hnin']; try done.
      + destruct Hnin'. by right.
      + apply elem_of_cons in Hin' as [?|?]; [congruence | done]. }
  split; [apply Hstate|].
  intros a. rewrite Hstate. destruct (decide _); [|done].
  apply call_after_GetSourceRef.
Qed.

(** X10.  The reference [GetSourceRef] returns keeps the API version, kind
    and name of [sourceRef], and has an empty namespace only when both
    [sourceRef] and the unit have none: for a unit in a namespace the
    reference is always qualified. *)
Theorem GetSourceRef_qualifies (k : Konfiguration) r :
  SourceRef (Spec k) = Some r ->
  ∃ r', (GetSourceRef k).1 = Some r' ∧
        APIVersion r' = APIVersion r ∧ Kind r' = Kind r ∧ Name r' = Name r ∧
        (Namespace r' = "" ↔ Namespace r = "" ∧ GetNamespace k = "") ∧
        (Namespace r ≠ "" -> Namespace r' = Namespace r).
Proof.
  intros Hr. unfold GetSourceRef. rewrite Hr.
  destruct (String.eqb_spec (Namespace r) "") as [Hns|Hns]; simpl.
  - eexists. split; [done|]. simpl. split_and!; try done. by split; [|intros []].
  - exists r. split_and!; try done. split; [done | by intros []].
Qed.

Lemma GetSourceRef_qualifies_witness :
  ∃ r', (GetSourceRef sample).1 = Some r' ∧ Namespace r' ≠ "".
Proof.
  destruct (GetSourceRef_qualifies sample _ eq_refl)
    as (r' & Hr' & _ & _ & _ & Hns & _).
  exists r'. split; [exact Hr'|].
  intros Hempty. apply Hns in Hempty as [_ Hk]. discriminate Hk.
Defined.

(** ** The CRD schema and the accessors *)

Lemma accept_Some s spec :
  accept s = Some spec ->
  validSpec (applyDefaults s) = true ∧ spec = decode (applyDefaults s).
Proof.
  unfold accept. destruct (validSpec (applyDefaults s)); [|done].
  by intros [= <-].
Qed.

Lemma stored_without_spec (m : Manifest) (k : Konfiguration) :
  stored m = Some (Spec k) -> mSpec m = None -> Spec k = zeroSpec.
Proof. unfold stored. intros H Hm. rewrite Hm in H. by injection H. Qed.

Lemma stored_with_spec (m : Manifest) (s : SubmittedSpec) spec :
  stored m = Some spec -> mSpec m = Some s -> accept s = Some spec.
Proof. unfold stored. intros H Hm. by rewrite Hm in H. Qed.

(** X11.  On a unit that the schema accepted.  If its manifest carries a
    [spec]: validation is enabled unless that [spec] says
    [validate: false], the unit is suspended only if it says
    [suspend: true], and pruning is as it says, which it has to say.  If
    its manifest carries no [spec]: none of the three is on, validation
    included, whose default of [true] sits inside the missing [spec]. *)
Theorem switches_of_a_stored_manifest (m : Manifest) (k : Konfiguration) :
  stored m = Some (Spec k) ->
  (∀ s, mSpec m = Some s ->
        (ValidateEnabled k = false ↔ sValidate s = Some false) ∧
        (IsSuspended k = true ↔ sSuspend s = Some true) ∧
        sPrune s = Some (GCEnabled k)) ∧
  (mSpec m = None ->
   ValidateEnabled k = false ∧ IsSuspended k = false ∧ GCEnabled k = false).
Proof.
  intros Hstored. split.
  - intros s Hs.
    apply (stored_with_spec m s) in Hstored; [|done].
    apply accept_Some in Hstored as [Hvalid Hspec].
    unfold ValidateEnabled, IsSuspended, GCEnabled. rewrite Hspec. simpl.
    unfold validSpec in Hvalid. simpl in Hvalid.
    destruct (sValidate s) as [[|]|], (sSuspend s) as [[|]|],
      (sPrune s) as [b|]; simpl in *; try done;
      by rewrite ?andb_false_r in Hvalid.
  - intros Hs. apply stored_without_spec in Hstored; [|done].
    unfold ValidateEnabled, IsSuspended, GCEnabled. by rewrite Hstored.
Qed.

Lemma switches_of_a_stored_manifest_witness :
  ValidateEnabled plainUnit = true ∧
  ValidateEnabled (withSpec zeroSpec) = false.
Proof.
  destruct (switches_of_a_stored_manifest minimalManifest plainUnit eq_refl)
    as [Hwith _].
  destruct (switches_of_a_stored_manifest bareManifest (withSpec zeroSpec)
              eq_refl) as [_ Hwithout].
  destruct (Hwith minimalSpec eq_refl) as ([Hv _] & _).
  split; [|exact (proj1 (Hwithout eq_refl))].
  destruct (ValidateEnabled plainUnit); [reflexivity|].
  discriminate (Hv eq_refl).
Defined.

(** X12.  On a unit that the schema accepted.  If its manifest carries a
    [spec]: the interval is the one of that [spec], which has to give one,
    and the retry interval and the timeout are those of that [spec] where
    it gives them and the interval where it does not.  If its manifest
    carries no [spec]: the interval, the retry interval and the timeout
    are all zero.  A duration of the manifest is taken as parsed. *)
Theorem timing_of_a_stored_manifest (m : Manifest) (k : Konfiguration) :
  stored m = Some (Spec k) ->
  (∀ s, mSpec m = Some s ->
        sInterval s = Some {| metav1.Duration_ := GetInterval k |} ∧
        GetRetryInterval k
        = default (GetInterval k) (metav1.Duration_ <$> sRetryInterval s) ∧
        GetTimeout k
        = default (GetInterval k) (metav1.Duration_ <$> sTimeout s)) ∧
  (mSpec m = None ->
   GetInterval k = 0%Z ∧ GetRetryInterval k = 0%Z ∧ GetTimeout k = 0%Z).
Proof.
  intros Hstored. split.
  - intros s Hs.
    apply (stored_with_spec m s) in Hstored; [|done].
    apply accept_Some in Hstored as [Hvalid Hspec].
    unfold GetRetryInterval, GetTimeout, GetInterval. rewrite Hspec. simpl.
    unfold validSpec in Hvalid. simpl in Hvalid.
    destruct (sInterval s) as [[d]|]; [|done]. simpl.
    split; [done|].
    by destruct (sRetryInterval s), (sTimeout s).
  - intros Hs. apply stored_without_spec in Hstored; [|done].
    unfold GetRetryInterval, GetTimeout, GetInterval. by rewrite Hstored.
Qed.

Lemma timing_of_a_stored_manifest_witness :
  (GetTimeout (withSpec (decode (applyDefaults fullSpec))) = 300000000000%Z ∧
   GetRetryInterval (withSpec (decode (applyDefaults fullSpec)))
   = 30000000000%Z) ∧
  GetInterval (withSpec zeroSpec) = 0%Z.
Proof.
  destruct (timing_of_a_stored_manifest {| mSpec := Some fullSpec |}
              (withSpec (decode (applyDefaults fullSpec))) eq_refl)
    as [Hwith _].
  destruct (timing_of_a_stored_manifest bareManifest (withSpec zeroSpec)
              eq_refl) as [_ Hwithout].
  destruct (Hwith fullSpec eq_refl) as (_ & Hr & Ht).
  split; [split; [exact Ht | exact Hr]|].
  exact (proj1 (Hwithout eq_refl)).
Defined.

Lemma inEnum_false enum o :
  inEnum enum o = false ↔ ∃ x, o = Some x ∧ x ∉ enum.
Proof.
  destruct o as [x|]; simpl.
  - rewrite <- not_true_iff_false, existsb_exists. split.
    + intros Hno. exists x. split; [done|]. intros Hin%list_elem_of_In.
      apply Hno. exists x. split; [done | apply String.eqb_refl].
    + intros (y & [= <-] & Hnin) (z & Hz%list_elem_of_In & ->%String.eqb_eq).
      done.
  - split; [done | by intros (x & ? & _)].
Qed.

Lemma present_false {A} (o : option A) : present o = false ↔ o = None.
Proof. by destruct o. Qed.

(** What the schema holds against a [spec] whose properties have the
    types it declares. *)
Lemma accept_None (s : SubmittedSpec) :
  accept s = None ↔
  sInterval s = None ∨ sPath s = None ∨ sPrune s = None ∨
  (∃ d, sDiffStrategy s = Some d ∧ d ∉ ["all"; "subset"; "last-applied"]) ∨
  (∃ r, sSourceRef s = Some r ∧
        (sKind r = None ∨ sName r = None ∨
         ∃ kind, sKind r = Some kind ∧ kind ∉ ["GitRepository"; "Bucket"])) ∨
  (∃ ds d, sDependsOn s = Some ds ∧ d ∈ ds ∧ dName d = None).
Proof.
  unfold accept.
  assert (Hdefault : inEnum diffStrategyEnum (sDiffStrategy (applyDefaults s))
                     = inEnum diffStrategyEnum (sDiffStrategy s)).
  { simpl. by destruct (sDiffStrategy s). }
  destruct (validSpec (applyDefaults s)) eqn:Hvalid.
  - split; [done|]. intros Hbad. exfalso.
    unfold validSpec in Hvalid. rewrite Hdefault in Hvalid. simpl in Hvalid.
    repeat apply andb_prop in Hvalid as [Hvalid ?].
    destruct Hbad as [E|[E|[E|[(d & E & Hd)|[(r & E & Hr)|(ds & d & E & Hd & Hn)]]]]].
    + by rewrite E in Hvalid.
    + by rewrite E in *.
    + by rewrite E in *.
    + assert (inEnum diffStrategyEnum (sDiffStrategy s) = false)
        by (apply inEnum_false; eauto). congruence.
    + rewrite E in *. unfold validSourceRef in *.
      repeat match goal with
             | H : _ && _ = true |- _ => apply andb_prop in H as [? ?]
             end.
      destruct Hr as [E'|[E'|(kind & E' & Hk)]].
      * by rewrite E' in *.
      * by rewrite E' in *.
      * assert (inEnum sourceKindEnum (sKind r) = false)
          by (apply inEnum_false; eauto). congruence.
    + rewrite E in *.
      match goal with
      | H : forallb _ _ = true |- _ =>
          rewrite forallb_forall in H;
          specialize (H d (proj1 (list_elem_of_In _ _) Hd))
      end.
      unfold validDependency in *. by rewrite Hn in *.
  - split; [intros _|done].
    unfold validSpec in Hvalid. rewrite Hdefault in Hvalid. simpl in Hvalid.
    repeat (apply andb_false_iff in Hvalid as [Hvalid|Hvalid]).
    + left. by apply present_false.
    + right. left. by apply present_false.
    + right. right. left. by apply present_false.
    + right. right. right. left. by apply inEnum_false.
    + right. right. right. right. left.
      destruct (sSourceRef s) as [r|]; [|done]. exists r. split; [done|].
      unfold validSourceRef in Hvalid.
      repeat (apply andb_false_iff in Hvalid as [Hvalid|Hvalid]).
      * left. by apply present_false.
      * right. left. by apply present_false.
      * right. right. by apply inEnum_false.
    + right. right. right. right. right.
      destruct (sDependsOn s) as [ds|]; [|done]. exists ds.
      apply not_true_iff_false in Hvalid.
      rewrite forallb_forall in Hvalid.
      destruct (decide (Forall (λ d, dName d ≠ None) ds)) as [Hall|Hex].
      * destruct Hvalid. intros d Hd%list_elem_of_In.
        rewrite Forall_forall in Hall. specialize (Hall d Hd).
        unfold validDependency. by destruct (dName d).
      * apply not_Forall_Exists in Hex; [|apply _].
        apply Exists_exists in Hex as (d & Hd & Hn).
        exists d. split; [done|]. split; [done|].
        simpl in Hn. destruct (dName d) as [nm|]; [|done]. by destruct Hn.
Qed.

(** X13.  Of the manifests whose properties have the types the schema
    declares for them, which are the manifests [Manifest] holds, the
    schema turns one down exactly when it carries a [spec] and that
    [spec] lacks the interval, the path or the prune switch, names a diff
    strategy other than the three, has a source reference without kind or
    name or of a kind other than the two, or lists a dependency without a
    name.  A manifest without [spec] is not turned down.  What the schema
    holds against a property of another type is not covered. *)
Theorem stored_refuses (m : Manifest) :
  stored m = None ↔
  ∃ s, mSpec m = Some s ∧
    (sInterval s = None ∨ sPath s = None ∨ sPrune s = None ∨
     (∃ d, sDiffStrategy s = Some d ∧ d ∉ ["all"; "subset"; "last-applied"]) ∨
     (∃ r, sSourceRef s = Some r ∧
           (sKind r = None ∨ sName r = None ∨
            ∃ kind, sKind r = Some kind ∧
                    kind ∉ ["GitRepository"; "Bucket"])) ∨
     (∃ ds d, sDependsOn s = Some ds ∧ d ∈ ds ∧ dName d = None)).
Proof.
  unfold stored. destruct (mSpec m) as [s|].
  - rewrite accept_None. split.
    + intros H. by exists s.
    + by intros (s' & [= <-] & H).
  - split; [done | by intros (s & Hs & _)].
Qed.

(** X14.  On a unit whose [spec] was accepted with a source reference, the
    reference has a kind, one of the two, and a name, and [GetSourceRef]
    returns it with the namespace the manifest gives, or with the unit's
    own when the manifest gives none or an empty one. *)
Theorem source_of_an_accepted_spec
    (s : SubmittedSpec) (k : Konfiguration) (r : SubmittedSourceRef) :
  accept s = Some (Spec k) ->
  sSourceRef s = Some r ->
  ∃ kind name,
    sKind r = Some kind ∧ sName r = Some name ∧
    kind ∈ ["GitRepository"; "Bucket"] ∧
    (GetSourceRef k).1
    = Some {| APIVersion := default "" (sAPIVersion r);
              Kind := kind;
              Name := name;
              Namespace :=
                match sNamespace r with
                | Some ns => if decide (ns = "") then GetNamespace k else ns
                | None => GetNamespace k
                end |}.
Proof.
  intros [Hvalid Hspec]%accept_Some Hr.
  unfold validSpec in Hvalid. simpl in Hvalid. rewrite Hr in Hvalid.
  repeat apply andb_prop in Hvalid as [Hvalid ?].
  match goal with
  | H : validSourceRef r = true |- _ =>
      unfold validSourceRef in H;
      apply andb_prop in H as [[Hk Hn]%andb_prop Henum]
  end.
  destruct (sKind r) as [kind|] eqn:Hkind; [|done].
  destruct (sName r) as [name|] eqn:Hname; [|done].
  exists kind, name. split_and!; try done.
  { by apply (inEnum_Some sourceKindEnum). }
  unfold GetSourceRef. rewrite Hspec. simpl. rewrite Hr. simpl.
  unfold decodeSourceRef, setNamespace. rewrite Hkind, Hname. simpl.
  destruct (sNamespace r) as [ns|]; simpl.
  - destruct (String.eqb_spec ns "") as [->|Hne]; simpl.
    + done.
    + by rewrite decide_False.
  - done.
Qed.

Lemma source_of_an_accepted_spec_witness :
  (GetSourceRef (withSpec (decode (applyDefaults fullSpec)))).1
  = Some {| APIVersion := ""; Kind := "Bucket"; Name := "artifacts";
            Namespace := "prod" |}.
Proof.
  destruct (source_of_an_accepted_spec fullSpec
              (withSpec (decode (applyDefaults fullSpec))) _
              eq_refl eq_refl) as (kind & name & Hk & Hn & _ & H).
  injection Hk as <-. injection Hn as <-. exact H.
Defined.

(** X15.  Writing a default out changes nothing: a [spec] and the same
    [spec] with its defaults filled in are accepted alike, and stored
    alike. *)
Theorem accept_with_defaults_written_out (s : SubmittedSpec) :
  accept (applyDefaults s) = accept s ∧
  applyDefaults (applyDefaults s) = applyDefaults s.
Proof.
  assert (H : applyDefaults (applyDefaults s) = applyDefaults s).
  { unfold applyDefaults. simpl.
    by destruct (sDiffStrategy s), (sValidate s). }
  split; [|done]. unfold accept. by rewrite H.
Qed.

(** ** The slice [AppendToArgs] appends to *)

Lemma length_view h s : inBounds h s -> length (view h s) = len s.
Proof.
  unfold inBounds, view. intros [_ Hb].
  rewrite length_take_le; [done|]. rewrite length_drop. lia.
Qed.

Lemma lookup_view h s i :
  i < len s -> view h s !! i = backing h s !! (offset s + i).
Proof.
  intros Hi. unfold view. by rewrite lookup_take_lt, lookup_drop.
Qed.

(** Writing behind a window does not show in it. *)
Lemma take_drop_insert_behind (a : list string) o n i x :
  o + n ≤ i -> take n (drop o (<[i:=x]> a)) = take n (drop o a).
Proof.
  intros Hle. apply list_eq. intros j.
  destruct (decide (j < n)) as [Hj|Hj].
  - rewrite !lookup_take_lt, !lookup_drop by done.
    apply list_lookup_insert_ne. lia.
  - by rewrite !lookup_take_ge by lia.
Qed.

(** Two elements written right behind a window of [n] make a window of
    [n + 2]. *)
Lemma take_drop_insert_two (a : list string) o n x y :
  o + n + 2 ≤ length a ->
  take (n + 2) (drop o (<[o + n + 1 := y]> (<[o + n := x]> a)))
  = take n (drop o a) ++ [x; y].
Proof.
  intros Hlen. apply list_eq. intros j.
  assert (Hn : length (take n (drop o a)) = n).
  { rewrite length_take_le; [done|]. rewrite length_drop. lia. }
  destruct (decide (j < n)) as [Hj|Hj].
  - rewrite lookup_app_l by lia.
    rewrite !lookup_take_lt, !lookup_drop by lia.
    by rewrite !list_lookup_insert_ne by lia.
  - rewrite lookup_app_r by lia. rewrite Hn.
    destruct (decide (j = n)) as [->|Hj'].
    + rewrite lookup_take_lt, lookup_drop by lia.
      rewrite list_lookup_insert_ne by lia.
      rewrite list_lookup_insert_eq by lia.
      by rewrite Nat.sub_diag.
    + destruct (decide (j = n + 1)) as [->|Hj''].
      * rewrite lookup_take_lt, lookup_drop by lia.
        replace (o + (n + 1)) with (o + n + 1) by lia.
        rewrite list_lookup_insert_eq by (rewrite length_insert; lia).
        by replace (n + 1 - n) with 1 by lia.
      * rewrite lookup_take_ge by lia.
        destruct (j - n) as [|[|m]] eqn:Hm; [lia..|done].
Qed.

(** An [append] writes to the array of its slice or to a new one: the
    other arrays stay as they are. *)
Lemma append2_others grow h s x y a b :
  h !! a = Some b -> a ≠ array s -> (append2 grow h s x y).1 !! a = Some b.
Proof.
  intros Ha Hne. unfold append2.
  destruct (decide (len s + 2 ≤ cap h s)); cbn [fst].
  - by rewrite lookup_insert_ne.
  - rewrite lookup_insert_ne; [done|].
    intros <-. by apply (is_fresh (dom h)), elem_of_dom.
Qed.

Lemma append2_array grow h s x y :
  array (append2 grow h s x y).2 = array s ∨
  array (append2 grow h s x y).2 ∉ dom h.
Proof.
  unfold append2. destruct (decide (len s + 2 ≤ cap h s)); cbn [snd array].
  - by left.
  - right. apply is_fresh.
Qed.

(** What one [append] does: the result shows the elements of [s] and the
    two new ones; a slice clear of [s] shows what it showed; with room the
    array of [s] is used, and otherwise a new one, next to the arrays there
    were. *)
Lemma append2_spec grow h s x y :
  inBounds h s ->
  let h' := (append2 grow h s x y).1 in
  let s' := (append2 grow h s x y).2 in
  inBounds h' s' ∧ view h' s' = view h s ++ [x; y] ∧ len s' = len s + 2 ∧
  (∀ t, inBounds h t -> clearOf s t -> inBounds h' t ∧ view h' t = view h t) ∧
  (len s + 2 ≤ cap h s ->
   array s' = array s ∧ offset s' = offset s ∧ dom h' = dom h ∧
   cap h' s' = cap h s) ∧
  (cap h s < len s + 2 -> (array s' ∉ dom h) ∧ h ⊆ h').
Proof.
  intros [Hin Hb]. cbv zeta. unfold append2.
  destruct (decide (len s + 2 ≤ cap h s)) as [Hroom|Hfull]; cbn [fst snd].
  - (* in place *)
    unfold cap in Hroom.
    set (a' := <[offset s + len s + 1 := y]>
                 (<[offset s + len s := x]> (backing h s))).
    assert (Hlen : length a' = length (backing h s))
      by (unfold a'; by rewrite !length_insert).
    assert (Hback : ∀ t, array t = array s ->
              backing (<[array s := a']> h) t = a').
    { intros t Ht. unfold backing. by rewrite Ht, lookup_insert_eq. }
    assert (Hother : ∀ t, array t ≠ array s ->
              backing (<[array s := a']> h) t = backing h t
              ∧ <[array s := a']> h !! array t = h !! array t).
    { intros t Ht. unfold backing. by rewrite lookup_insert_ne. }
    split_and!.
    + split; [by rewrite lookup_insert_eq|].
      rewrite Hback by done. simpl. lia.
    + unfold view at 1. rewrite Hback by done. simpl.
      apply take_drop_insert_two. lia.
    + done.
    + intros t [Hint Ht] Hclear.
      destruct (decide (array t = array s)) as [Heq|Hne].
      * destruct Hclear as [?|Hle]; [done|].
        assert (backing h t = backing h s) as Hsame
          by (unfold backing; by rewrite Heq).
        unfold inBounds, view. rewrite Hback, Hlen, Heq by done.
        rewrite lookup_insert_eq, <- Hsame.
        split; [by split|]. rewrite Hsame. unfold a'.
        by rewrite !take_drop_insert_behind by lia.
      * destruct (Hother t Hne) as [Hb' Hl'].
        unfold inBounds, view. by rewrite Hb', Hl'.
    + intros _. split_and!; try done.
      * by apply dom_insert_lookup_L.
      * unfold cap. rewrite Hback by done. simpl. lia.
    + intros Hc. unfold cap in Hc. lia.
  - (* a new array *)
    set (a := fresh (dom h)).
    assert (Hfresh : h !! a = None)
      by (apply not_elem_of_dom, is_fresh).
    set (a' := view h s ++ [x; y]
               ++ replicate (grow (cap h s) (len s + 2) - (len s + 2)) "").
    assert (Hsub : h ⊆ <[a := a']> h) by (by apply insert_subseteq).
    set (s' := {| array := a; offset := 0; len := len s + 2 |}).
    assert (Hback : backing (<[a := a']> h) s' = a')
      by (unfold backing; simpl; by rewrite lookup_insert_eq).
    assert (Hlen : length a' = len s + 2
                   + (grow (cap h s) (len s + 2) - (len s + 2))).
    { unfold a'.
      rewrite !length_app, length_view, length_replicate by (by split).
      simpl. lia. }
    split_and!.
    + split; [by rewrite lookup_insert_eq|]. rewrite Hback, Hlen. simpl. lia.
    + unfold view at 1. rewrite Hback. cbn [offset len]. rewrite drop_0.
      unfold a'. rewrite app_assoc.
      apply take_app_length'.
      rewrite length_app, length_view by (by split). simpl. lia.
    + done.
    + intros t [[b Harr] Ht] _.
      assert (<[a := a']> h !! array t = Some b) as Hl'
        by (by apply (lookup_weaken _ _ _ _ Harr Hsub)).
      unfold inBounds, view, backing in *. rewrite Hl', Harr in *. eauto.
    + intros ?. lia.
    + intros _. split; [apply is_fresh | done].
Qed.

Lemma appendFlag_slice_appendAll grow flag es hs :
  appendFlag_slice grow flag es hs = appendAll grow (pair flag <$> es) hs.
Proof.
  unfold appendFlag_slice, appendAll. revert hs.
  induction es as [|e es IH]; intros hs; simpl; [done | apply IH].
Qed.

Lemma appendAll_app grow t1 t2 hs :
  appendAll grow (t1 ++ t2) hs = appendAll grow t2 (appendAll grow t1 hs).
Proof. apply fold_left_app. Qed.

(** The four loops are one sequence of appends, that of [tagged]. *)
Lemma AppendToArgs_slice_appendAll grow o1 o2 o3 o4 hs :
  AppendToArgs_slice grow o1 o2 o3 o4 hs
  = appendAll grow (tagged o1 o2 o3 o4) hs.
Proof.
  unfold AppendToArgs_slice, tagged.
  by rewrite !appendAll_app, !appendFlag_slice_appendAll.
Qed.

Lemma appendAll_cons grow p t hs :
  appendAll grow (p :: t) hs
  = appendAll grow t (append2 grow hs.1 hs.2 p.1 (p.2.1 +:+ "=" +:+ p.2.2)).
Proof. done. Qed.

(** Arrays that the slice is not in stay as they are, whatever is
    appended, and the slice does not move into one of them. *)
Lemma appendAll_protected grow t : ∀ (h0 h : Arrays) s,
  h0 ⊆ h -> array s ∉ dom h0 ->
  h0 ⊆ (appendAll grow t (h, s)).1 ∧
  array (appendAll grow t (h, s)).2 ∉ dom h0.
Proof.
  induction t as [|p t IH]; intros h0 h s Hsub Hout; [done|].
  rewrite appendAll_cons. cbn [fst snd].
  destruct (append2 grow h s p.1 (p.2.1 +:+ "=" +:+ p.2.2)) as [h1 s1] eqn:E.
  apply IH.
  - apply map_subseteq_spec. intros a b Ha.
    replace h1 with (append2 grow h s p.1 (p.2.1 +:+ "=" +:+ p.2.2)).1
      by (by rewrite E).
    apply append2_others.
    + by apply (lookup_weaken _ _ _ _ Ha Hsub).
    + intros ->. apply Hout. by apply elem_of_dom.
  - replace s1 with (append2 grow h s p.1 (p.2.1 +:+ "=" +:+ p.2.2)).2
      by (by rewrite E).
    destruct (append2_array grow h s p.1 (p.2.1 +:+ "=" +:+ p.2.2))
      as [->|Hnew]; [done|].
    intros Hin. apply Hnew. by apply (subseteq_dom _ _ Hsub).
Qed.

(** What the appends of a call do, all together. *)
Lemma appendAll_spec grow t : ∀ (h : Arrays) s,
  inBounds h s ->
  let h' := (appendAll grow t (h, s)).1 in
  let s' := (appendAll grow t (h, s)).2 in
  inBounds h' s' ∧ view h' s' = view h s ++ flagPairs t ∧
  len s' = len s + 2 * length t ∧
  (∀ u, inBounds h u -> clearOf s u -> inBounds h' u ∧ view h' u = view h u) ∧
  (len s + 2 * length t ≤ cap h s ->
   array s' = array s ∧ offset s' = offset s ∧ dom h' = dom h ∧
   cap h' s' = cap h s) ∧
  (cap h s < len s + 2 -> h ⊆ h' ∧ (t ≠ [] -> array s' ∉ dom h)).
Proof.
  induction t as [|p t IH]; intros h s Hb; cbv zeta.
  { simpl. rewrite app_nil_r. split_and!; try done; try lia. }
  rewrite appendAll_cons. cbn [fst snd].
  pose proof (append2_spec grow h s p.1 (p.2.1 +:+ "=" +:+ p.2.2) Hb)
    as (Hb1 & Hv1 & Hl1 & Hframe1 & Hroom1 & Hfull1).
  pose proof (append2_array grow h s p.1 (p.2.1 +:+ "=" +:+ p.2.2)) as Harr1.
  destruct (append2 grow h s p.1 (p.2.1 +:+ "=" +:+ p.2.2)) as [h1 s1] eqn:E.
  cbn [fst snd] in *.
  pose proof (IH h1 s1 Hb1) as (Hb' & Hv' & Hl' & Hframe' & Hroom' & Hfull').
  split_and!.
  - done.
  - rewrite Hv', Hv1, <- app_assoc. done.
  - rewrite Hl', Hl1. simpl. lia.
  - intros u Hu Hclear.
    destruct (Hframe1 u Hu Hclear) as [Hu1 Hvu1].
    rewrite <- Hvu1. apply Hframe'; [done|].
    destruct Harr1 as [Hsame|Hnew].
    + destruct (decide (len s + 2 ≤ cap h s)) as [Hr|Hr].
      * destruct (Hroom1 Hr) as (_ & Ho & _).
        destruct Hclear as [?|?]; [left; congruence | right; lia].
      * destruct (Hfull1 ltac:(lia)) as [Hnew _].
        left. intros Heq. apply Hnew. rewrite <- Heq.
        apply elem_of_dom, Hu.
    + left. intros Heq. apply Hnew. rewrite <- Heq. apply elem_of_dom, Hu.
  - intros Hr. simpl in Hr.
    destruct (Hroom1 ltac:(lia)) as (Ha1 & Ho1 & Hd1 & Hc1).
    destruct (Hroom' ltac:(lia)) as (Ha' & Ho' & Hd' & Hc').
    split_and!; congruence.
  - intros Hf. destruct (Hfull1 Hf) as [Hnew Hsub].
    destruct (appendAll_protected grow t h h1 s1 Hsub Hnew) as [? ?].
    done.
Qed.

(** X16.  On a slice, [AppendToArgs] returns a slice that shows what the
    value-level method returns on the elements of the slice it was given,
    for the same iteration orders; and it shows it within its array. *)
Theorem AppendToArgs_slice_shows_the_result
    (grow : nat -> nat -> nat) (o1 o2 o3 o4 : list (string * string))
    (h : Arrays) (s : slice) :
  inBounds h s ->
  view (AppendToArgs_slice grow o1 o2 o3 o4 (h, s)).1
       (AppendToArgs_slice grow o1 o2 o3 o4 (h, s)).2
  = AppendToArgs_in o1 o2 o3 o4 (view h s) ∧
  inBounds (AppendToArgs_slice grow o1 o2 o3 o4 (h, s)).1
           (AppendToArgs_slice grow o1 o2 o3 o4 (h, s)).2.
Proof.
  intros Hb. rewrite AppendToArgs_slice_appendAll, AppendToArgs_in_tagged.
  destruct (appendAll_spec grow (tagged o1 o2 o3 o4) h s Hb) as (? & ? & _).
  done.
Qed.

Lemma AppendToArgs_slice_shows_the_result_witness :
  view (AppendToArgs_slice doubling [("env", "prod")] [] []
          [("replicas", "3")] (fullArrays, baseSlice)).1
       (AppendToArgs_slice doubling [("env", "prod")] [] []
          [("replicas", "3")] (fullArrays, baseSlice)).2
  = ["kubecfg"; "show"; "--ext-str"; "env=prod"; "--tla-code"; "replicas=3"].
Proof.
  refine (proj1 (AppendToArgs_slice_shows_the_result doubling
                   [("env", "prod")] [] [] [("replicas", "3")]
                   fullArrays baseSlice _)).
  split; [by eexists | vm_compute; lia].
Defined.

(** X17.  A call never writes to the elements it was given, nor before
    them, nor to another array: the slice that was passed in, and every
    slice that lies in another array or ends no later than it, shows after
    the call what it showed before. *)
Theorem AppendToArgs_slice_leaves_the_given_elements
    (grow : nat -> nat -> nat) (o1 o2 o3 o4 : list (string * string))
    (h : Arrays) (s u : slice) :
  inBounds h s -> inBounds h u -> clearOf s u ->
  let h' := (AppendToArgs_slice grow o1 o2 o3 o4 (h, s)).1 in
  view h' u = view h u ∧ inBounds h' u ∧
  view h' s = view h s ∧ delete (array s) h ⊆ h'.
Proof.
  intros Hs Hu Hclear. cbv zeta. rewrite AppendToArgs_slice_appendAll.
  destruct (appendAll_spec grow (tagged o1 o2 o3 o4) h s Hs)
    as (_ & _ & _ & Hframe & _).
  destruct (Hframe u Hu Hclear) as [? ?].
  destruct (Hframe s Hs (or_intror (le_n _))) as [_ ?].
  split_and!; try done.
  apply (appendAll_protected grow _ (delete (array s) h) h s).
  - apply delete_subseteq.
  - rewrite dom_delete_L. intros [_ Hn]%elem_of_difference.
    apply Hn. by apply elem_of_singleton.
Qed.

Lemma AppendToArgs_slice_leaves_the_given_elements_witness :
  view (AppendToArgs_slice doubling [("env", "prod")] [] []
          [("replicas", "3")] (roomyArrays, baseSlice)).1 baseSlice
  = ["kubecfg"; "show"].
Proof.
  refine (proj1 (AppendToArgs_slice_leaves_the_given_elements doubling
                   [("env", "prod")] [] [] [("replicas", "3")]
                   roomyArrays baseSlice baseSlice _ _ _)).
  - split; [by eexists | vm_compute; lia].
  - split; [by eexists | vm_compute; lia].
  - right. simpl. lia.
Defined.

(** Slices of one array from one offset show the same elements as far as
    both reach. *)
Lemma view_same_window h s t i :
  array s = array t -> offset s = offset t -> i < len s -> i < len t ->
  view h s !! i = view h t !! i.
Proof.
  intros Ha Ho Hs Ht. rewrite !lookup_view by done.
  unfold backing. by rewrite Ha, Ho.
Qed.

Lemma cap_same_window h s t :
  array s = array t -> offset s = offset t -> cap h s = cap h t.
Proof. intros Ha Ho. unfold cap, backing. by rewrite Ha, Ho. Qed.

(** X18.  When the slice has room for all the pairs, nothing is allocated:
    the result is on the same array, from the same offset, longer by two
    for every entry, and the call writes the pairs into the spare
    capacity behind the elements it was given. *)
Theorem AppendToArgs_slice_with_room
    (grow : nat -> nat -> nat) (o1 o2 o3 o4 : list (string * string))
    (h : Arrays) (s : slice) :
  inBounds h s ->
  len s + 2 * length (tagged o1 o2 o3 o4) ≤ cap h s ->
  let h' := (AppendToArgs_slice grow o1 o2 o3 o4 (h, s)).1 in
  let s' := (AppendToArgs_slice grow o1 o2 o3 o4 (h, s)).2 in
  s' = {| array := array s; offset := offset s;
          len := len s + 2 * length (tagged o1 o2 o3 o4) |} ∧
  dom h' = dom h ∧
  length (backing h' s) = length (backing h s) ∧
  ∀ i, i < 2 * length (tagged o1 o2 o3 o4) ->
       backing h' s !! (offset s + len s + i)
       = flagPairs (tagged o1 o2 o3 o4) !! i.
Proof.
  intros Hb Hroom. cbv zeta. rewrite AppendToArgs_slice_appendAll.
  destruct (appendAll_spec grow (tagged o1 o2 o3 o4) h s Hb)
    as (Hb' & Hv & Hl & _ & Hin & _).
  destruct (Hin Hroom) as (Ha & Ho & Hd & Hc).
  destruct (appendAll grow (tagged o1 o2 o3 o4) (h, s)) as [h' s'].
  cbn [fst snd] in *.
  assert (Hback : backing h' s = backing h' s')
    by (unfold backing; by rewrite Ha).
  split_and!.
  - destruct s'. simpl in *. by subst.
  - done.
  - unfold cap in Hc.
    destruct Hb as [_ Hb], Hb' as [_ Hb']. rewrite Hback. lia.
  - intros i Hi.
    rewrite Hback, <- Ho, <- Nat.add_assoc, <- lookup_view by lia.
    rewrite Hv, lookup_app_r by (rewrite length_view by done; lia).
    rewrite length_view by done. f_equal. lia.
Qed.

Lemma AppendToArgs_slice_with_room_witness :
  (AppendToArgs_slice doubling [("env", "prod")] [] []
     [("replicas", "3")] (roomyArrays, baseSlice)).2
  = {| array := 0; offset := 0; len := 6 |}.
Proof.
  refine (proj1 (AppendToArgs_slice_with_room doubling
                   [("env", "prod")] [] [] [("replicas", "3")]
                   roomyArrays baseSlice _ _)).
  - split; [by eexists | vm_compute; lia].
  - vm_compute. lia.
Defined.

(** X19.  Two calls on the same slice, each with room for its pairs, write
    to the same place: after the second call the result of the first shows
    the pairs of the second, as far as the two reach. *)
Theorem AppendToArgs_slice_second_call_overwrites
    (grow : nat -> nat -> nat)
    (o1 o2 o3 o4 o1' o2' o3' o4' : list (string * string))
    (h : Arrays) (s : slice) (i : nat) :
  inBounds h s ->
  len s + 2 * length (tagged o1 o2 o3 o4) ≤ cap h s ->
  len s + 2 * length (tagged o1' o2' o3' o4') ≤ cap h s ->
  i < len s + 2 * length (tagged o1 o2 o3 o4) ->
  i < len s + 2 * length (tagged o1' o2' o3' o4') ->
  let first := AppendToArgs_slice grow o1 o2 o3 o4 (h, s) in
  let second := AppendToArgs_slice grow o1' o2' o3' o4' (first.1, s) in
  view second.1 first.2 !! i
  = AppendToArgs_in o1' o2' o3' o4' (view h s) !! i.
Proof.
  intros Hb Hroom Hroom' Hi Hi'. cbv zeta.
  rewrite !AppendToArgs_slice_appendAll, AppendToArgs_in_tagged.
  destruct (appendAll_spec grow (tagged o1 o2 o3 o4) h s Hb)
    as (Hb1 & _ & Hl1 & Hframe1 & Hin1 & _).
  destruct (Hin1 Hroom) as (Ha1 & Ho1 & _ & Hc1).
  destruct (Hframe1 s Hb (or_intror (le_n _))) as [Hbs Hvs].
  destruct (appendAll grow (tagged o1 o2 o3 o4) (h, s)) as [h1 s1].
  cbn [fst snd] in *.
  assert (Hcap : cap h1 s = cap h s)
    by (by rewrite <- (cap_same_window h1 s1 s)).
  destruct (appendAll_spec grow (tagged o1' o2' o3' o4') h1 s Hbs)
    as (_ & Hv2 & Hl2 & _ & Hin2 & _).
  destruct (Hin2 ltac:(lia)) as (Ha2 & Ho2 & _).
  destruct (appendAll grow (tagged o1' o2' o3' o4') (h1, s)) as [h2 s2].
  cbn [fst snd] in *.
  rewrite <- Hvs, <- Hv2.
  apply view_same_window; congruence || lia.
Qed.

Lemma AppendToArgs_slice_second_call_overwrites_witness :
  view (AppendToArgs_slice doubling [("env", "test")] [] [] []
          ((AppendToArgs_slice doubling [("env", "prod")] [] [] []
              (roomyArrays, baseSlice)).1, baseSlice)).1
       (AppendToArgs_slice doubling [("env", "prod")] [] [] []
          (roomyArrays, baseSlice)).2 !! 3
  = Some "env=test".
Proof.
  refine (AppendToArgs_slice_second_call_overwrites doubling
            [("env", "prod")] [] [] [] [("env", "test")] [] [] []
            roomyArrays baseSlice 3 _ _ _ _ _).
  - split; [by eexists | vm_compute; lia].
  - vm_compute. lia.
  - vm_compute. lia.
  - vm_compute. lia.
  - vm_compute. lia.
Defined.

(** X20.  When the slice has no room for even one pair, the call leaves
    every array as it is and returns a slice on a new one; so the results
    of two calls on such a slice are apart, and the second call does not
    change what the first result shows. *)
Theorem AppendToArgs_slice_without_room
    (grow : nat -> nat -> nat)
    (o1 o2 o3 o4 o1' o2' o3' o4' : list (string * string))
    (h : Arrays) (s : slice) :
  inBounds h s ->
  cap h s < len s + 2 ->
  let first := AppendToArgs_slice grow o1 o2 o3 o4 (h, s) in
  let second := AppendToArgs_slice grow o1' o2' o3' o4' (first.1, s) in
  h ⊆ first.1 ∧
  (tagged o1 o2 o3 o4 ≠ [] -> array first.2 ∉ dom h) ∧
  first.1 ⊆ second.1 ∧
  view second.1 first.2 = view first.1 first.2 ∧
  (tagged o1 o2 o3 o4 ≠ [] -> tagged o1' o2' o3' o4' ≠ [] ->
   array second.2 ≠ array first.2).
Proof.
  intros Hb Hfull. cbv zeta. rewrite !AppendToArgs_slice_appendAll.
  destruct (appendAll_spec grow (tagged o1 o2 o3 o4) h s Hb)
    as (Hb1 & _ & _ & Hframe1 & _ & Hout1).
  destruct (Hout1 Hfull) as [Hsub1 Hnew1].
  destruct (Hframe1 s Hb (or_intror (le_n _))) as [Hbs _].
  destruct (appendAll grow (tagged o1 o2 o3 o4) (h, s)) as [h1 s1].
  cbn [fst snd] in *.
  assert (Hback : backing h1 s = backing h s).
  { destruct Hb as [[b Harr] _]. unfold backing.
    by rewrite Harr, (lookup_weaken _ _ _ _ Harr Hsub1). }
  assert (Hcap : cap h1 s = cap h s) by (unfold cap; by rewrite Hback).
  destruct (appendAll_spec grow (tagged o1' o2' o3' o4') h1 s Hbs)
    as (_ & _ & _ & _ & _ & Hout2).
  destruct (Hout2 ltac:(lia)) as [Hsub2 Hnew2].
  destruct (appendAll grow (tagged o1' o2' o3' o4') (h1, s)) as [h2 s2].
  cbn [fst snd] in *.
  split_and!; try done.
  - destruct Hb1 as [[b Harr] _]. unfold view, backing.
    by rewrite Harr, (lookup_weaken _ _ _ _ Harr Hsub2).
  - intros Ht Ht' Heq. apply (Hnew2 Ht'). rewrite Heq.
    apply elem_of_dom, Hb1.
Qed.

Lemma AppendToArgs_slice_without_room_witness :
  let first := AppendToArgs_slice doubling [("env", "prod")] [] [] []
                 (fullArrays, baseSlice) in
  let second := AppendToArgs_slice doubling [("env", "test")] [] [] []
                  (first.1, baseSlice) in
  view second.1 first.2 = view first.1 first.2.
Proof.
  refine (proj1 (proj2 (proj2 (proj2
            (AppendToArgs_slice_without_room doubling
               [("env", "prod")] [] [] [] [("env", "test")] [] [] []
               fullArrays baseSlice _ _))))).
  - split; [by eexists | vm_compute; lia].
  - vm_compute. lia.
Defined.

(** ** The reference [GetSourceRef] returns *)

Lemma GetSourceRef_value k :
  (GetSourceRef k).1
  = (λ r, if String.eqb (Namespace r) ""
          then setNamespace (GetNamespace k) r else r) <$> SourceRef (Spec k).
Proof.
  unfold GetSourceRef. destruct (SourceRef (Spec k)) as [r|]; [|done].
  simpl. destruct (String.eqb (Namespace r) ""); reflexivity.
Qed.

(** X21.  [GetSourceRef] returns the pointer the spec holds, not a copy,
    and fills the namespace in through it: what the pointer points to
    after the call is what the value-level method returns; a unit that
    holds another reference is as it was; and a unit that holds the same
    reference, such as a shallow copy, now has the reference as returned,
    with the namespace of the unit the call was made on. *)
Theorem GetSourceRef_writes_through_the_pointer
    (h : Refs) (p : option nat) (k : Konfiguration) :
  heldAt h p k ->
  let q := (GetSourceRef_ptr (GetNamespace k) p h).1 in
  let h' := (GetSourceRef_ptr (GetNamespace k) p h).2 in
  q = p ∧
  deref h' q = (GetSourceRef k).1 ∧
  heldAt h' p (GetSourceRef k).2 ∧
  (∀ p2 k2, heldAt h p2 k2 -> p2 ≠ p -> heldAt h' p2 k2) ∧
  (∀ k2, heldAt h p k2 ->
         heldAt h' p (setSpec (setSourceRef (GetSourceRef k).1 (Spec k2)) k2)).
Proof.
  intros Hheld. cbv zeta. rewrite GetSourceRef_value.
  assert (Hspec : SourceRef (Spec (GetSourceRef k).2) = (GetSourceRef k).1).
  { unfold GetSourceRef. destruct (SourceRef (Spec k)) as [r|] eqn:Hr;
      [|by simpl].
    destruct (String.eqb (Namespace r) ""); [done | by simpl]. }
  rewrite GetSourceRef_value in Hspec.
  unfold GetSourceRef_ptr, heldAt, deref in *.
  destruct p as [a|]; simpl.
  - destruct Hheld as (r & Ha & Hr). rewrite Ha, Hr in *. simpl in *.
    destruct (String.eqb (Namespace r) "") eqn:Hns; simpl.
    + rewrite lookup_insert_eq. split_and!; try done.
      * by eexists.
      * intros [b|] k2 Hk2 Hne; [|done].
        destruct Hk2 as (r2 & Hb & Hr2). exists r2.
        rewrite lookup_insert_ne by congruence. done.
      * intros k2 _. by eexists.
    + rewrite Ha. split_and!; try done.
      * by eexists.
      * intros k2 _. by eexists.
  - rewrite Hheld in *. simpl in *. split_and!; try done.
Qed.

Lemma GetSourceRef_writes_through_the_pointer_witness :
  deref (GetSourceRef_ptr "prod" (Some 7)
           {[ 7 := {| APIVersion := "source.toolkit.fluxcd.io/v1beta1";
                      Kind := "GitRepository"; Name := "repo";
                      Namespace := "" |} ]}).2 (Some 7)
  = (GetSourceRef sample).1.
Proof.
  refine (proj1 (proj2 (GetSourceRef_writes_through_the_pointer
            {[ 7 := {| APIVersion := "source.toolkit.fluxcd.io/v1beta1";
                       Kind := "GitRepository"; Name := "repo";
                       Namespace := "" |} ]} (Some 7) sample _))).
  eexists. split; reflexivity.
Defined.

(** ** Calls through a pointer that may be nil *)

(** X22.  A manifest need not give variables or a kubeconfig, and is
    accepted without; [GetVariables] and [GetKubeConfig] then return nil,
    and [AppendToArgs] and [Fetch] called on what they return panic.  With
    the property given they return; a source reference left out does no
    such harm, [GetSourceRef] returns nil. *)
Theorem calls_on_what_the_accessors_return
    (s : SubmittedSpec) (k : Konfiguration) (c : client.Client)
    (args : list string) :
  accept s = Some (Spec k) ->
  (AppendToArgs_on (GetVariables k) args Panics ↔ sVariables s = None) ∧
  (Fetch_on (GetKubeConfig k) c (GetNamespace k) = Panics ↔
   sKubeConfig s = None) ∧
  (∀ v, sVariables s = Some v ->
        ∃ out, AppendToArgs_on (GetVariables k) args (Returns out)) ∧
  (sSourceRef s = None -> GetSourceRef k = (None, k)).
Proof.
  intros [_ Hspec]%accept_Some.
  unfold GetVariables, GetKubeConfig, GetSourceRef. rewrite Hspec. simpl.
  split_and!.
  - destruct (sVariables s) as [v|]; simpl; split; try done.
    by intros (out & ? & _).
  - by destruct (sKubeConfig s).
  - intros v ->. simpl. exists (AppendToArgs_run v args), (AppendToArgs_run v args).
    split; [done | apply AppendToArgs_run_possible].
  - intros Hs. rewrite Hs. reflexivity.
Qed.

Lemma calls_on_what_the_accessors_return_witness :
  AppendToArgs_on
    (GetVariables (withSpec (decode (applyDefaults minimalSpec))))
    ["show"] Panics.
Proof.
  destruct (calls_on_what_the_accessors_return minimalSpec
              (withSpec (decode (applyDefaults minimalSpec)))
              sampleClient ["show"] eq_refl) as ([_ H] & _).
  exact (H eq_refl).
Defined.
